(** * A shallow embedding of the ray tracer's geometry and materials

    Rust [f64] is modelled by Rocq's primitive binary64 floats ([PrimFloat]),
    whose operations round exactly as IEEE 754 does, so NaN, infinities and
    signed zeros behave as in the compiled program and every definition below
    runs under [vm_compute].  Randomness is an explicit generator state. *)

From Stdlib Require Import ZArith Bool List Lia.
From Stdlib Require Import Floats.
From Stdlib Require Uint63.

Import ListNotations.

Open Scope float_scope.
#[global] Set Warnings "-inexact-float".

(** ** Float helpers of the Rust standard library *)

(** [f64::powi], as the compiler runtime's [__powidf2] evaluates it:
    square-and-multiply over the bits of the exponent. *)
Fixpoint powi_pos (a r : float) (b : positive) : float :=
  match b with
  | xH => r * a
  | xO b' => powi_pos (a * a) r b'
  | xI b' => powi_pos (a * a) (r * a) b'
  end.

Definition powi (a : float) (b : Z) : float :=
  match b with
  | Z0 => 1
  | Zpos p => powi_pos a 1 p
  | Zneg p => 1 / powi_pos a 1 p
  end.

(** [f64::min]: when one argument is NaN the other one is returned. *)
Definition fmin (a b : float) : float :=
  if PrimFloat.is_nan a then b
  else if PrimFloat.is_nan b then a
  else if b <? a then b else a.

(** [std::f64::consts::PI] and [f64::MAX]. *)
Definition PI_f64 : float := 0x1.921fb54442d18p+1.
Definition MAX_f64 : float := 0x1.fffffffffffffp+1023.
Definition INFINITY_f64 : float := PrimFloat.infinity.

(** ** Vectors (basic/vec.rs)

    Modelled from the spec: the vector module is not part of the source
    files; the spec treats it as a given utility library of three-component
    float vectors with componentwise arithmetic, dot product and squared
    length.  The operators below are the componentwise ones that library
    provides. *)
Record Vec3 := mkVec3 { x : float; y : float; z : float }.
Definition Point3 := Vec3.
Definition Color := Vec3.

Definition vadd (a b : Vec3) : Vec3 := mkVec3 (x a + x b) (y a + y b) (z a + z b).
Definition vsub (a b : Vec3) : Vec3 := mkVec3 (x a - x b) (y a - y b) (z a - z b).
Definition vneg (a : Vec3) : Vec3 := mkVec3 (- x a) (- y a) (- z a).
(** [Vec3 * Vec3] (used on colors) and [Vec3 * f64], [Vec3 / f64]. *)
Definition vmul (a b : Vec3) : Vec3 := mkVec3 (x a * x b) (y a * y b) (z a * z b).
Definition vscale (a : Vec3) (t : float) : Vec3 := mkVec3 (x a * t) (y a * t) (z a * t).
Definition vdiv (a : Vec3) (t : float) : Vec3 := mkVec3 (x a / t) (y a / t) (z a / t).

Definition dot (a b : Vec3) : float := x a * x b + y a * y b + z a * z b.
Definition length_sqr (a : Vec3) : float := x a * x a + y a * y a + z a * z a.
Definition length (a : Vec3) : float := PrimFloat.sqrt (length_sqr a).
Definition to_unit (a : Vec3) : Vec3 := vdiv a (length a).
Definition cross (a b : Vec3) : Vec3 :=
  mkVec3 (y a * z b - z a * y b) (z a * x b - x a * z b) (x a * y b - y a * x b).

Definition near_zero (a : Vec3) : bool :=
  let s := 1e-8 in
  (PrimFloat.abs (x a) <? s) && (PrimFloat.abs (y a) <? s) && (PrimFloat.abs (z a) <? s).

(** Mirror reflection of [v] about [n]. *)
Definition reflect (v n : Vec3) : Vec3 := vsub v (vscale n (2 * dot v n)).

(** Snell refraction of the unit vector [uv] through normal [n]. *)
Definition refract (uv n : Vec3) (etai_over_etat : float) : Vec3 :=
  let cos_theta := fmin (dot (vneg uv) n) 1 in
  let r_out_perp := vscale (vadd uv (vscale n cos_theta)) etai_over_etat in
  let r_out_parallel :=
    vscale n (- PrimFloat.sqrt (PrimFloat.abs (1 - length_sqr r_out_perp))) in
  vadd r_out_perp r_out_parallel.

(** ** Rays (basic/ray.rs, modelled from the spec: origin, direction, time) *)
Record Ray := mkRay { orig : Point3; dir : Vec3; tm : float }.

Definition ray_at (r : Ray) (t : float) : Point3 := vadd (orig r) (vscale (dir r) t).

(** ** Orthonormal basis (basic/onb.rs)

    Modelled from the spec: [Onb::build_from_w] builds a basis with the
    normalised [w] as one axis and [local_vec] maps local coordinates to
    world space as [u*a.x + v*a.y + w*a.z]. *)
Record Onb := mkOnb { onb_u : Vec3; onb_v : Vec3; onb_w : Vec3 }.

Definition build_from_w (n : Vec3) : Onb :=
  let w := to_unit n in
  let a := if 0.9 <? PrimFloat.abs (x w) then mkVec3 0 1 0 else mkVec3 1 0 0 in
  let v := to_unit (cross w a) in
  let u := cross w v in
  mkOnb u v w.

Definition local_vec (o : Onb) (a : Vec3) : Vec3 :=
  vadd (vadd (vscale (onb_u o) (x a)) (vscale (onb_v o) (y a))) (vscale (onb_w o) (z a)).

(** ** Random generator

    The generator is explicit state: a list of uniform draws in [0, 1) for
    [rng.gen_range(0.0..1.0)] and a list of sampled vectors for the
    samplers of the vector module ([random_in_unit_sphere],
    [random_cosine_direction], [random_unit_vector]), whose bodies are not
    in the source.  An exhausted list yields zero. *)
Record RandState := mkRand { draws : list float; samples : list Vec3 }.

Definition Rand (A : Type) : Type := RandState -> A * RandState.

Definition rret {A} (a : A) : Rand A := fun s => (a, s).
Definition rbind {A B} (m : Rand A) (k : A -> Rand B) : Rand B :=
  fun s => let '(a, s') := m s in k a s'.

Notation "x <- m ;; k" := (rbind m (fun x => k))
  (at level 61, m at next level, right associativity).

Definition zero3 : Vec3 := mkVec3 0 0 0.

Definition gen_f64 : Rand float := fun s =>
  match draws s with
  | [] => (0, s)
  | d :: ds => (d, mkRand ds (samples s))
  end.

Definition gen_vec : Rand Vec3 := fun s =>
  match samples s with
  | [] => (zero3, s)
  | v :: vs => (v, mkRand (draws s) vs)
  end.

Definition random_in_unit_sphere : Rand Vec3 := gen_vec.
Definition random_cosine_direction : Rand Vec3 := gen_vec.
Definition random_unit_vector : Rand Vec3 := gen_vec.

(** ** Textures (texture.rs)

    Modelled from the spec: the texture module is not part of the source
    files.  Materials hold a texture as a trait object ([Arc<dyn
    Texture>]), so a texture is any implementation of its [value] method,
    a function of [(u, v, p)]; [SolidColor] is the constant one. *)
Record Texture := mkTexture { value : float -> float -> Point3 -> Color }.

Definition SolidColor (c : Color) : Texture := mkTexture (fun _ _ _ => c).

(** ** Materials (material/mod.rs), as a tagged variant of the trait's impls *)
Inductive Material :=
| Lambertian (albedo : Texture)
| Metal (albedo : Color) (fuzz : float)
| Dielectric (ir : float)
| DiffuseLight (emit : Texture)
| Isotropic (albedo : Texture).

Definition Lambertian_new (a : Color) : Material := Lambertian (SolidColor a).
Definition Metal_new (a : Color) (f : float) : Material := Metal a (if f <? 1 then f else 1).
Definition DiffuseLight_new (c : Color) : Material := DiffuseLight (SolidColor c).

(** ** Hit records (hittable/mod.rs)

    Modelled from the spec: the hittable module is not part of the source
    files.  A record holds the point, the stored normal, the ray parameter,
    the surface coordinates, the [front_face] flag and the material;
    [set_face_normal] sets [front_face] to [dot(ray.direction,
    outward_normal) < 0] and stores the outward normal when it is set and
    its negation otherwise. *)
Record HitRecord := mkHitRecord {
  p : Point3; normal : Vec3; t : float; u : float; v : float;
  front_face : bool; mat_ptr : Material }.

Definition HitRecord_new (p0 : Point3) (n : Vec3) (t0 u0 v0 : float) (ff : bool)
  (m : Material) : HitRecord := mkHitRecord p0 n t0 u0 v0 ff m.

Definition set_face_normal (rec : HitRecord) (r : Ray) (outward_normal : Vec3) : HitRecord :=
  let ff := dot (dir r) outward_normal <? 0 in
  mkHitRecord (p rec) (if ff then outward_normal else vneg outward_normal)
    (t rec) (u rec) (v rec) ff (mat_ptr rec).

(** [Dielectric::reflectance]: Schlick's approximation. *)
Definition reflectance (cos ref_idx : float) : float :=
  let r0 := (1 - ref_idx) / (1 + ref_idx) in
  let r0 := r0 * r0 in
  r0 + (1 - r0) * powi (1 - cos) 5.

(** [Material::scatter] of each variant. *)
Definition scatter (m : Material) (r_in : Ray) (rec : HitRecord)
  : Rand (option (Color * Ray * float)) :=
  match m with
  | Lambertian albedo =>
      d <- random_cosine_direction ;;
      let uvw := build_from_w (normal rec) in
      let direction := local_vec uvw d in
      let scattered := mkRay (p rec) (to_unit direction) (tm r_in) in
      let alb := value albedo (u rec) (v rec) (p rec) in
      let pdf := dot (onb_w uvw) (dir scattered) / PI_f64 in
      rret (Some (alb, scattered, pdf))
  | Metal albedo fuzz =>
      let reflected := reflect (to_unit (dir r_in)) (normal rec) in
      rv <- random_in_unit_sphere ;;
      let scattered := mkRay (p rec) (vadd reflected (vscale rv fuzz)) (tm r_in) in
      if 0 <? dot (dir scattered) (normal rec)
      then rret (Some (albedo, scattered, 0))
      else rret None
  | Dielectric ir =>
      let refraction_ratio := if front_face rec then 1 / ir else ir in
      let unit_direction := to_unit (dir r_in) in
      let cos_theta := fmin (dot (vneg unit_direction) (normal rec)) 1 in
      let sin_theta := PrimFloat.sqrt (1 - powi cos_theta 2) in
      let cannot_refract := 1 <? refraction_ratio * sin_theta in
      random_double <- gen_f64 ;;
      let direction :=
        if cannot_refract || (random_double <? reflectance cos_theta refraction_ratio)
        then reflect unit_direction (normal rec)
        else refract unit_direction (normal rec) refraction_ratio in
      rret (Some (mkVec3 1 1 1, mkRay (p rec) direction (tm r_in), 0))
  | DiffuseLight _ => rret None
  | Isotropic albedo =>
      rv <- random_in_unit_sphere ;;
      rret (Some (value albedo (u rec) (v rec) (p rec), mkRay (p rec) rv (tm r_in), 0))
  end.

(** [Material::scattering_pdf] (zero by default). *)
Definition scattering_pdf (m : Material) (r_in : Ray) (rec : HitRecord) (scattered : Ray) : float :=
  match m with
  | Lambertian _ =>
      let cosine := dot (normal rec) (to_unit (dir scattered)) in
      if cosine <? 0 then 0 else cosine / PI_f64
  | _ => 0
  end.

(** [Material::emitted] (black by default). *)
Definition emitted (m : Material) (r_in : Ray) (rec : HitRecord) (u0 v0 : float) (p0 : Point3) : Color :=
  match m with
  | DiffuseLight emit => if front_face rec then value emit u0 v0 p0 else mkVec3 0 0 0
  | _ => mkVec3 0 0 0
  end.

(** ** Spheres (hittable/sphere.rs)

    [get_sphere_uv] calls the platform's [acos] and [atan2], which are
    neither in this repository nor among the primitive float operations;
    they are the Section variables [f64_acos] and [f64_atan2].  Only the
    surface coordinates [u], [v] of a record depend on them. *)
Module Sphere.

Record Sphere := mkSphere { center : Point3; radius : float; mat_ptr : Material }.

Section WithLibm.
Variable f64_acos : float -> float.
Variable f64_atan2 : float -> float -> float.

Definition get_sphere_uv (p0 : Point3) : float * float :=
  let theta := f64_acos (- y p0) in
  let phi := f64_atan2 (- z p0) (x p0) + PI_f64 in
  (phi / (2 * PI_f64), theta / PI_f64).

(** The root search of [hit]: the smaller root, else the larger one, each
    rejected when it lies outside [[t_min, t_max]]. *)
Definition root_in (half_b sqrtd a t_min t_max : float) : option float :=
  let root := (- half_b - sqrtd) / a in
  if (root <? t_min) || (t_max <? root) then
    let root := (- half_b + sqrtd) / a in
    if (root <? t_min) || (t_max <? root) then None else Some root
  else Some root.

Definition hit (s : Sphere) (r : Ray) (t_min t_max : float) : option HitRecord :=
  let oc := vsub (orig r) (center s) in
  let a := length_sqr (dir r) in
  let half_b := dot oc (dir r) in
  let c := length_sqr oc - radius s * radius s in
  let discriminant := powi half_b 2 - a * c in
  if discriminant <? 0 then None
  else
    let sqrtd := PrimFloat.sqrt discriminant in
    match root_in half_b sqrtd a t_min t_max with
    | None => None
    | Some root =>
        let outward_normal := vdiv (vsub (ray_at r root) (center s)) (radius s) in
        let '(u0, v0) := get_sphere_uv outward_normal in
        let rec := HitRecord_new (ray_at r root) outward_normal root u0 v0 false (mat_ptr s) in
        Some (set_face_normal rec r outward_normal)
    end.

Definition pdf_value (s : Sphere) (o : Point3) (v0 : Vec3) : float :=
  match hit s (mkRay o v0 0) 0.001 INFINITY_f64 with
  | Some _ =>
      let cos_max := PrimFloat.sqrt (1 - radius s * radius s / length_sqr (vsub (center s) o)) in
      let solid_angle := 2 * PI_f64 * (1 - cos_max) in
      1 / solid_angle
  | None => 0
  end.

End WithLibm.
End Sphere.

(** ** Moving spheres (hittable/sphere.rs) *)
Module MovingSphere.

Record MovingSphere := mkMovingSphere {
  center0 : Point3; center1 : Point3; time0 : float; time1 : float;
  radius : float; mat_ptr : Material }.

Definition center (s : MovingSphere) (time : float) : Point3 :=
  vadd (center0 s) (vscale (vsub (center1 s) (center0 s)) ((time - time0 s) / (time1 s - time0 s))).

Section WithLibm.
Variable f64_acos : float -> float.
Variable f64_atan2 : float -> float -> float.

Definition hit (s : MovingSphere) (r : Ray) (t_min t_max : float) : option HitRecord :=
  let oc := vsub (orig r) (center s (tm r)) in
  let a := length_sqr (dir r) in
  let half_b := dot oc (dir r) in
  let c := length_sqr oc - radius s * radius s in
  let discriminant := powi half_b 2 - a * c in
  if discriminant <? 0 then None
  else
    let sqrtd := PrimFloat.sqrt discriminant in
    match Sphere.root_in half_b sqrtd a t_min t_max with
    | None => None
    | Some root =>
        let outward_normal := vdiv (vsub (ray_at r root) (center s (tm r))) (radius s) in
        let '(u0, v0) := Sphere.get_sphere_uv f64_acos f64_atan2 outward_normal in
        let rec := HitRecord_new (ray_at r root) outward_normal root u0 v0 false (mat_ptr s) in
        Some (set_face_normal rec r outward_normal)
    end.

End WithLibm.
End MovingSphere.

(** ** The first sphere and materials (sphere.rs, material.rs)

    The source also keeps an earlier sphere and material module, with rays
    and hit records without time, surface coordinates or material. *)
Module Old.

Record Ray := mkRay { orig : Point3; dir : Vec3 }.
Definition ray_at (r : Ray) (t0 : float) : Point3 := vadd (orig r) (vscale (dir r) t0).

Record HitRecord := mkHitRecord { p : Point3; normal : Vec3; t : float; front_face : bool }.

Definition HitRecord_new (p0 : Point3) (n : Vec3) (t0 : float) (ff : bool) : HitRecord :=
  mkHitRecord p0 n t0 ff.

(** Modelled from the spec, as for the current records. *)
Definition set_face_normal (rec : HitRecord) (r : Ray) (outward_normal : Vec3) : HitRecord :=
  let ff := dot (dir r) outward_normal <? 0 in
  mkHitRecord (p rec) (if ff then outward_normal else vneg outward_normal) (t rec) ff.

Record Sphere := mkSphere { center : Point3; radius : float }.

(** [Sphere::hit] of sphere.rs.  The retry of the larger root is a [let]
    inside the [if] block: it only decides the early return, and the record
    is built from the [root] bound before the block. *)
Definition hit (s : Sphere) (r : Ray) (t_min t_max : float) : option HitRecord :=
  let oc := vsub (orig r) (center s) in
  let a := length_sqr (dir r) in
  let half_b := dot oc (dir r) in
  let c := length_sqr oc - radius s * radius s in
  let discriminant := powi half_b 2 - a * c in
  if discriminant <? 0 then None
  else
    let sqrtd := PrimFloat.sqrt discriminant in
    let root := (- half_b - sqrtd) / a in
    let build (root : float) :=
      let rec := HitRecord_new (ray_at r root)
                   (vdiv (vsub (ray_at r root) (center s)) (radius s)) root false in
      let outward_normal := vdiv (vsub (p rec) (center s)) (radius s) in
      Some (set_face_normal rec r outward_normal) in
    if (root <? t_min) || (t_max <? root) then
      let root_in_block := (- half_b + sqrtd) / a in
      if (root_in_block <? t_min) || (t_max <? root_in_block) then None
      else build root
    else build root.

(** material.rs *)
Inductive Material :=
| Lambertian (albedo : Color)
| Metal (albedo : Color) (fuzz : float).

Definition Metal_new (a : Color) (f : float) : Material := Metal a (if f <? 1 then f else 1).

Definition scatter (m : Material) (r_in : Ray) (rec : HitRecord) : Rand (option (Color * Ray)) :=
  match m with
  | Lambertian albedo =>
      rv <- random_unit_vector ;;
      let scatter_direction := vadd (normal rec) rv in
      let scatter_direction := if near_zero scatter_direction then normal rec else scatter_direction in
      rret (Some (albedo, mkRay (p rec) scatter_direction))
  | Metal albedo fuzz =>
      let reflected := reflect (to_unit (dir r_in)) (normal rec) in
      rv <- random_in_unit_sphere ;;
      let scattered := mkRay (p rec) (vadd reflected (vscale rv fuzz)) in
      if 0 <? dot (dir scattered) (normal rec)
      then rret (Some (albedo, scattered))
      else rret None
  end.

End Old.

(** ** Fixed instances of the platform functions for closed examples

    Closed examples must name some [acos] and [atan2]; they only reach the
    [u], [v] fields of a record, which no example below inspects (see
    [SphereFacts.hit_libm_indep]). *)
Definition acos_any (a : float) : float := 0.
Definition atan2_any (a b : float) : float := 0.



(** ** The dielectric as the spec words it

    Schlick's reflectance with [r0 = ((1 - ir) / (1 + ir))^2] from the index
    [ir] itself, the rest of [Dielectric::scatter] unchanged. *)
Definition reflectance_spec (cos ir : float) : float :=
  let r0 := (1 - ir) / (1 + ir) in
  let r0 := r0 * r0 in
  r0 + (1 - r0) * powi (1 - cos) 5.

Definition dielectric_scatter_spec (ir : float) (r_in : Ray) (rec : HitRecord)
  : Rand (option (Color * Ray * float)) :=
  let refraction_ratio := if front_face rec then 1 / ir else ir in
  let unit_direction := to_unit (dir r_in) in
  let cos_theta := fmin (dot (vneg unit_direction) (normal rec)) 1 in
  let sin_theta := PrimFloat.sqrt (1 - powi cos_theta 2) in
  let cannot_refract := 1 <? refraction_ratio * sin_theta in
  random_double <- gen_f64 ;;
  let direction :=
    if cannot_refract || (random_double <? reflectance_spec cos_theta ir)
    then reflect unit_direction (normal rec)
    else refract unit_direction (normal rec) refraction_ratio in
  rret (Some (mkVec3 1 1 1, mkRay (p rec) direction (tm r_in), 0)).

(** ** Pixel output (main.rs, [write_color])

    [f64::clamp]: the bounds [0.0] and [0.999] of [write_color] pass its
    [min <= max] assertion, which is therefore left out. *)
Definition f64_clamp (a lo hi : float) : float :=
  let a := if a <? lo then lo else a in
  if hi <? a then hi else a.

(** [f.floor() as u8]: the floor, then Rust's saturating cast, which maps
    NaN to [0], everything below [0] to [0] and everything above [255] to
    [255].  For a positive finite [m * 2^e] the floor is [m] shifted by
    [e]. *)
Definition floor_as_u8 (f : float) : Z :=
  match Prim2SF f with
  | S754_nan | S754_zero _ | S754_infinity true | S754_finite true _ _ => 0%Z
  | S754_infinity false => 255%Z
  | S754_finite false m e => Z.min 255 (Z.shiftl (Zpos m) e)
  end.

(** [n as f64] for an [i32] [n], exact at that width. *)
Definition i32_as_f64 (n : Z) : float :=
  if (n <? 0)%Z then - PrimFloat.of_uint63 (Uint63.of_Z (- n))
  else PrimFloat.of_uint63 (Uint63.of_Z n).

Definition write_component (c : float) (samples_per_pixel : Z) : Z :=
  floor_as_u8 (f64_clamp (PrimFloat.sqrt (c / i32_as_f64 samples_per_pixel)) 0 0.999 * 255.999).

(** The three bytes [[u8; 3]] as a triple. *)
Definition write_color (pixel_color : Color) (samples_per_pixel : Z) : Z * Z * Z :=
  (write_component (x pixel_color) samples_per_pixel,
   write_component (y pixel_color) samples_per_pixel,
   write_component (z pixel_color) samples_per_pixel).

(** What [write_color] does with one averaged component: [0] when the
    average is below zero or NaN, [255] when its square root is at least
    [0.999]. *)
Definition component_saturates (c : float) (samples_per_pixel : Z) (out : Z) : Prop :=
  let avg := c / i32_as_f64 samples_per_pixel in
  ((avg <? 0) = true \/ PrimFloat.is_nan avg = true -> out = 0%Z) /\
  ((0.999 <=? PrimFloat.sqrt avg) = true -> out = 255%Z).

(** ** Float facts used by the proofs

    [zr]: a zero of either sign; [zn]: a zero or NaN; [zsim]: equal up to
    the sign of a zero. *)
Definition zr_sf (f : spec_float) : Prop :=
  match f with S754_zero _ => True | _ => False end.

Definition zn_sf (f : spec_float) : Prop :=
  match f with S754_zero _ | S754_nan => True | _ => False end.

Definition zsim (a b : spec_float) : Prop := a = b \/ (zr_sf a /\ zr_sf b).

(** The geometric fields of a hit record, which do not depend on the
    platform's [acos] and [atan2]. *)
Definition strip (rec : HitRecord) : Point3 * Vec3 * float * bool * Material :=
  (p rec, normal rec, t rec, front_face rec, mat_ptr rec).

(** [nonfin]: an infinity or NaN. *)
Definition nonfin_sf (f : spec_float) : Prop :=
  match f with S754_nan | S754_infinity _ => True | _ => False end.


(** A vector with a component of magnitude at least [1/2].  Every unit
    vector is one, since its three squared components add up to 1. *)
Definition has_half_component (a : Vec3) : bool :=
  (0.5 <=? PrimFloat.abs (x a)) || (0.5 <=? PrimFloat.abs (y a)) || (0.5 <=? PrimFloat.abs (z a)).

(** * Proofs *)

Module FloatFacts.

Ltac sf_cases a := destruct a as [[]|[]| |[] ? ?].

Lemma Prim2SF_zero : Prim2SF 0 = S754_zero false.
Proof. reflexivity. Qed.

Lemma Prim2SF_one : Prim2SF 1 = S754_finite false 4503599627370496 (-52).
Proof. reflexivity. Qed.

Lemma Prim2SF_infinity : Prim2SF PrimFloat.infinity = S754_infinity false.
Proof. reflexivity. Qed.

Lemma zn_mul_r a b : zn_sf (Prim2SF b) -> zn_sf (Prim2SF (a * b)).
Proof.
  rewrite mul_spec. unfold SF64mul.
  sf_cases (Prim2SF a); sf_cases (Prim2SF b); simpl; tauto.
Qed.

Lemma zn_mul_l a b : zn_sf (Prim2SF a) -> zn_sf (Prim2SF (a * b)).
Proof.
  rewrite mul_spec. unfold SF64mul.
  sf_cases (Prim2SF a); sf_cases (Prim2SF b); simpl; tauto.
Qed.

Lemma zn_add a b : zn_sf (Prim2SF a) -> zn_sf (Prim2SF b) -> zn_sf (Prim2SF (a + b)).
Proof.
  rewrite add_spec. unfold SF64add.
  sf_cases (Prim2SF a); sf_cases (Prim2SF b); simpl; tauto.
Qed.

Lemma zn_sub a b : zn_sf (Prim2SF a) -> zn_sf (Prim2SF b) -> zn_sf (Prim2SF (a - b)).
Proof.
  rewrite sub_spec. unfold SF64sub.
  sf_cases (Prim2SF a); sf_cases (Prim2SF b); simpl; tauto.
Qed.

Lemma zn_opp a : zn_sf (Prim2SF a) -> zn_sf (Prim2SF (- a)).
Proof. rewrite opp_spec. sf_cases (Prim2SF a); simpl; tauto. Qed.

Lemma zn_sqrt a : zn_sf (Prim2SF a) -> zn_sf (Prim2SF (PrimFloat.sqrt a)).
Proof.
  rewrite sqrt_spec. unfold SF64sqrt.
  sf_cases (Prim2SF a); simpl; tauto.
Qed.

Lemma zr_zn a : zr_sf (Prim2SF a) -> zn_sf (Prim2SF a).
Proof. sf_cases (Prim2SF a); simpl; tauto. Qed.

Lemma zr_mul a b : zr_sf (Prim2SF a) -> zr_sf (Prim2SF b) -> zr_sf (Prim2SF (a * b)).
Proof.
  rewrite mul_spec. unfold SF64mul.
  sf_cases (Prim2SF a); sf_cases (Prim2SF b); simpl; tauto.
Qed.

Lemma zr_add a b : zr_sf (Prim2SF a) -> zr_sf (Prim2SF b) -> zr_sf (Prim2SF (a + b)).
Proof.
  rewrite add_spec. unfold SF64add.
  sf_cases (Prim2SF a); sf_cases (Prim2SF b); simpl; tauto.
Qed.

Lemma zn_div_zr a b : zn_sf (Prim2SF a) -> zr_sf (Prim2SF b) -> Prim2SF (a / b) = S754_nan.
Proof.
  rewrite div_spec. unfold SF64div.
  sf_cases (Prim2SF a); sf_cases (Prim2SF b); simpl; tauto.
Qed.

Lemma zn_ltb_zero a : zn_sf (Prim2SF a) -> (a <? 0) = false.
Proof.
  rewrite ltb_spec, Prim2SF_zero.
  sf_cases (Prim2SF a); simpl; tauto.
Qed.

Lemma nan_ltb_l a b : Prim2SF a = S754_nan -> (a <? b) = false.
Proof. intros H. rewrite ltb_spec, H. reflexivity. Qed.

Lemma nan_ltb_r a b : Prim2SF b = S754_nan -> (a <? b) = false.
Proof.
  intros H. rewrite ltb_spec, H. unfold SFltb, SFcompare.
  destruct (Prim2SF a); reflexivity.
Qed.

Lemma nan_is_nan a : Prim2SF a = S754_nan -> PrimFloat.is_nan a = true.
Proof. intros H. unfold PrimFloat.is_nan. rewrite eqb_spec, H. reflexivity. Qed.

Lemma eqb_zero_zr a : (a =? 0) = true -> zr_sf (Prim2SF a).
Proof.
  rewrite eqb_spec, Prim2SF_zero.
  sf_cases (Prim2SF a); simpl; try discriminate; tauto.
Qed.


Lemma div_zr_nonfin a b : zr_sf (Prim2SF b) -> nonfin_sf (Prim2SF (a / b)).
Proof.
  rewrite div_spec. unfold SF64div.
  sf_cases (Prim2SF a); sf_cases (Prim2SF b); simpl; tauto.
Qed.

Lemma opp_nonfin a : nonfin_sf (Prim2SF a) -> nonfin_sf (Prim2SF (- a)).
Proof. rewrite opp_spec. sf_cases (Prim2SF a); simpl; tauto. Qed.

Lemma nonfin_is_finite a : nonfin_sf (Prim2SF a) -> PrimFloat.is_finite a = false.
Proof.
  unfold PrimFloat.is_finite, PrimFloat.is_nan, PrimFloat.is_infinity.
  rewrite !eqb_spec, abs_spec, Prim2SF_infinity.
  sf_cases (Prim2SF a); simpl; tauto.
Qed.

(** Rounding passes the sign through. *)
Lemma binary_round_aux_opp s m e l :
  SFopp (binary_round_aux prec emax s m e l) = binary_round_aux prec emax (negb s) m e l.
Proof.
  unfold binary_round_aux.
  destruct (shr_fexp prec emax m e l) as [mrs' e'].
  destruct (shr_fexp prec emax _ e' loc_Exact) as [mrs'' e''].
  destruct (shr_m mrs''); [reflexivity| |reflexivity].
  destruct (Z.leb _ _); reflexivity.
Qed.

Lemma binary_round_opp s m e :
  SFopp (binary_round prec emax s m e) = binary_round prec emax (negb s) m e.
Proof.
  unfold binary_round. destruct (shl_align _ _ _) as [mz ez].
  apply binary_round_aux_opp.
Qed.

Lemma binary_normalize_opp m e :
  zsim (binary_normalize prec emax (- m) e false) (SFopp (binary_normalize prec emax m e false)).
Proof.
  unfold zsim. destruct m as [|q|q]; simpl.
  - right; simpl; tauto.
  - left. rewrite binary_round_opp. reflexivity.
  - left. rewrite binary_round_opp. reflexivity.
Qed.

Lemma cond_Zopp_negb b m : cond_Zopp (negb b) m = (- cond_Zopp b m)%Z.
Proof. destruct b; simpl; lia. Qed.

Lemma SFmul_opp_r a b : SFmul prec emax a (SFopp b) = SFopp (SFmul prec emax a b).
Proof.
  sf_cases a; sf_cases b; simpl; try reflexivity;
    rewrite binary_round_aux_opp; reflexivity.
Qed.

Lemma SFadd_finite sx mx ex sy my ey :
  SFadd prec emax (S754_finite sx mx ex) (S754_finite sy my ey) =
  binary_normalize prec emax
    (cond_Zopp sx (Zpos (fst (shl_align mx ex (Z.min ex ey)))) +
     cond_Zopp sy (Zpos (fst (shl_align my ey (Z.min ex ey)))))
    (Z.min ex ey) false.
Proof. reflexivity. Qed.

Lemma SFadd_opp a b :
  zsim (SFadd prec emax (SFopp a) (SFopp b)) (SFopp (SFadd prec emax a b)).
Proof.
  sf_cases a; sf_cases b;
    try (cbn [SFopp]; rewrite !SFadd_finite, !cond_Zopp_negb, <- Z.opp_add_distr;
         apply binary_normalize_opp);
    unfold zsim; simpl; try (left; reflexivity); right; simpl; tauto.
Qed.

Lemma zsim_refl a : zsim a a.
Proof. left; reflexivity. Qed.

Lemma zsim_trans a b c : zsim a b -> zsim b c -> zsim a c.
Proof.
  unfold zsim. intros [->|[Ha Hb]] [->|[Hb' Hc]]; auto.
Qed.

Lemma SFadd_zsim_l a a' b : zsim a a' -> zsim (SFadd prec emax a b) (SFadd prec emax a' b).
Proof.
  unfold zsim. intros [->|[Ha Ha']]; [left; reflexivity|].
  destruct a as [[]|[]| |[] ? ?]; try contradiction;
  destruct a' as [[]|[]| |[] ? ?]; try contradiction;
  sf_cases b; simpl; try (left; reflexivity); right; simpl; tauto.
Qed.

(** The dot product with a negated vector is the negated dot product, up to
    the sign of a zero. *)
Lemma dot_vneg_zsim d n : zsim (Prim2SF (dot d (vneg n))) (SFopp (Prim2SF (dot d n))).
Proof.
  unfold dot, vneg; simpl.
  rewrite !add_spec, !mul_spec, !opp_spec. unfold SF64add, SF64mul.
  rewrite !SFmul_opp_r.
  eapply zsim_trans; [apply SFadd_zsim_l, SFadd_opp|].
  apply SFadd_opp.
Qed.

Lemma zsim_not_zr a b : zsim a b -> ~ zr_sf b -> a = b.
Proof. unfold zsim. intros [->|[_ Hb]] H; [reflexivity|contradiction]. Qed.



Lemma SFopp_involutive a : SFopp (SFopp a) = a.
Proof. sf_cases a; reflexivity. Qed.

(** Two floats with the same IEEE 754 datum are equal. *)
Lemma prim_inj a b : Prim2SF a = Prim2SF b -> a = b.
Proof.
  intros H. rewrite <- (SF2Prim_Prim2SF a), <- (SF2Prim_Prim2SF b), H. reflexivity.
Qed.

Lemma opp_opp a : - (- a) = a.
Proof. apply prim_inj. rewrite !opp_spec. apply SFopp_involutive. Qed.

Lemma SFmul_opp_l a b : SFmul prec emax (SFopp a) b = SFopp (SFmul prec emax a b).
Proof.
  sf_cases a; sf_cases b; simpl; try reflexivity;
    rewrite binary_round_aux_opp; reflexivity.
Qed.

(** [(-a) * (-b)] is [a * b], bit for bit. *)
Lemma mul_opp_opp a b : (- a) * (- b) = a * b.
Proof.
  apply prim_inj. rewrite !mul_spec, !opp_spec. unfold SF64mul.
  rewrite SFmul_opp_l, SFmul_opp_r. apply SFopp_involutive.
Qed.

Lemma SFdiv_opp_r a b : SFdiv prec emax a (SFopp b) = SFopp (SFdiv prec emax a b).
Proof.
  sf_cases a; sf_cases b; simpl; try reflexivity;
    destruct (SFdiv_core_binary _ _ _ _ _ _) as [[mz ez] lz];
    rewrite binary_round_aux_opp; reflexivity.
Qed.

(** [a / (-b)] is [-(a / b)], bit for bit. *)
Lemma div_opp_r a b : a / (- b) = - (a / b).
Proof.
  apply prim_inj. rewrite div_spec, !opp_spec, div_spec. unfold SF64div.
  apply SFdiv_opp_r.
Qed.

Lemma vdiv_opp a b : vdiv a (- b) = vneg (vdiv a b).
Proof. unfold vdiv, vneg. rewrite !div_opp_r. reflexivity. Qed.

Lemma vneg_vneg a : vneg (vneg a) = a.
Proof. destruct a. unfold vneg; cbn [x y z]. rewrite !opp_opp. reflexivity. Qed.

(** For a number that is neither a zero nor NaN, [-a < 0] is [not (a <
    0)]. *)
Lemma opp_ltb_zero_negb a :
  (a =? 0) = false -> PrimFloat.is_nan a = false -> (- a <? 0) = negb (a <? 0).
Proof.
  unfold PrimFloat.is_nan.
  rewrite !eqb_spec, !ltb_spec, opp_spec, Prim2SF_zero.
  sf_cases (Prim2SF a); cbn; intros; congruence.
Qed.

Lemma dot_vneg_ltb_negb d n :
  (dot d n =? 0) = false -> PrimFloat.is_nan (dot d n) = false ->
  (dot d (vneg n) <? 0) = negb (dot d n <? 0).
Proof.
  intros H0 Hn.
  assert (Hz : ~ zr_sf (SFopp (Prim2SF (dot d n)))).
  { revert H0. rewrite eqb_spec, Prim2SF_zero.
    sf_cases (Prim2SF (dot d n)); cbn; intros; congruence. }
  pose proof (zsim_not_zr _ _ (dot_vneg_zsim d n) Hz) as He.
  rewrite ltb_spec, He, <- opp_spec, <- ltb_spec.
  apply opp_ltb_zero_negb; assumption.
Qed.

End FloatFacts.

Module SphereFacts.
Import FloatFacts.

Lemma zero_direction_hit (f64_acos : float -> float) (f64_atan2 : float -> float -> float)
  (s : Sphere.Sphere) (r : Ray) (t_min t_max : float) :
  (x (dir r) =? 0) = true -> (y (dir r) =? 0) = true -> (z (dir r) =? 0) = true ->
  exists rec, Sphere.hit f64_acos f64_atan2 s r t_min t_max = Some rec /\
              PrimFloat.is_nan (t rec) = true.
Proof.
  intros Hx Hy Hz.
  apply eqb_zero_zr in Hx, Hy, Hz.
  unfold Sphere.hit; cbv zeta.
  assert (Ha : zr_sf (Prim2SF (length_sqr (dir r)))).
  { unfold length_sqr. apply zr_add; [apply zr_add|]; apply zr_mul; assumption. }
  assert (Hb : zn_sf (Prim2SF (dot (vsub (orig r) (Sphere.center s)) (dir r)))).
  { unfold dot. apply zn_add; [apply zn_add|]; apply zn_mul_r, zr_zn; assumption. }
  set (a := length_sqr (dir r)) in *.
  set (half_b := dot (vsub (orig r) (Sphere.center s)) (dir r)) in *.
  set (c := length_sqr (vsub (orig r) (Sphere.center s)) - Sphere.radius s * Sphere.radius s).
  assert (Hd : zn_sf (Prim2SF (powi half_b 2 - a * c))).
  { apply zn_sub.
    - simpl. apply zn_mul_r, zn_mul_l. exact Hb.
    - apply zn_mul_l, zr_zn. exact Ha. }
  rewrite (zn_ltb_zero _ Hd).
  unfold Sphere.root_in.
  set (sqrtd := PrimFloat.sqrt (powi half_b 2 - a * c)).
  assert (Hr : Prim2SF ((- half_b - sqrtd) / a) = S754_nan).
  { apply zn_div_zr; [|exact Ha]. apply zn_sub; [apply zn_opp, Hb|apply zn_sqrt, Hd]. }
  rewrite (nan_ltb_l _ _ Hr), (nan_ltb_r _ _ Hr). simpl.
  eexists; split; [reflexivity|]. simpl. apply nan_is_nan, Hr.
Qed.


Lemma zero_radius_hit (f64_acos : float -> float) (f64_atan2 : float -> float -> float)
  (s : Sphere.Sphere) (r : Ray) (t_min t_max : float) (rec : HitRecord) :
  (Sphere.radius s =? 0) = true ->
  Sphere.hit f64_acos f64_atan2 s r t_min t_max = Some rec ->
  PrimFloat.is_finite (x (normal rec)) = false /\
  PrimFloat.is_finite (y (normal rec)) = false /\
  PrimFloat.is_finite (z (normal rec)) = false.
Proof.
  intros Hr H. apply eqb_zero_zr in Hr.
  unfold Sphere.hit in H; cbv zeta in H.
  destruct (_ <? 0) in H; [discriminate|].
  match type of H with context [Sphere.root_in ?a ?b ?c ?d ?e] =>
    destruct (Sphere.root_in a b c d e) as [root|] end; [|discriminate].
  simpl in H. injection H as <-.
  unfold set_face_normal; simpl.
  destruct (_ <? 0); simpl; repeat split; apply nonfin_is_finite;
    try apply opp_nonfin; apply div_zr_nonfin; exact Hr.
Qed.

Lemma hit_libm_indep (a1 a2 : float -> float) (b1 b2 : float -> float -> float)
  (s : Sphere.Sphere) (r : Ray) (t_min t_max : float) :
  option_map strip (Sphere.hit a1 b1 s r t_min t_max) =
  option_map strip (Sphere.hit a2 b2 s r t_min t_max).
Proof.
  unfold Sphere.hit; cbv zeta.
  destruct (_ <? 0); [reflexivity|].
  destruct (Sphere.root_in _ _ _ _ _); reflexivity.
Qed.

Lemma old_zero_direction_hit (s : Old.Sphere) (r : Old.Ray) (t_min t_max : float) :
  (x (Old.dir r) =? 0) = true -> (y (Old.dir r) =? 0) = true -> (z (Old.dir r) =? 0) = true ->
  exists rec, Old.hit s r t_min t_max = Some rec /\ PrimFloat.is_nan (Old.t rec) = true.
Proof.
  intros Hx Hy Hz.
  apply eqb_zero_zr in Hx, Hy, Hz.
  unfold Old.hit; cbv beta zeta.
  assert (Ha : zr_sf (Prim2SF (length_sqr (Old.dir r)))).
  { unfold length_sqr. apply zr_add; [apply zr_add|]; apply zr_mul; assumption. }
  assert (Hb : zn_sf (Prim2SF (dot (vsub (Old.orig r) (Old.center s)) (Old.dir r)))).
  { unfold dot. apply zn_add; [apply zn_add|]; apply zn_mul_r, zr_zn; assumption. }
  set (a := length_sqr (Old.dir r)) in *.
  set (half_b := dot (vsub (Old.orig r) (Old.center s)) (Old.dir r)) in *.
  set (c := length_sqr (vsub (Old.orig r) (Old.center s)) - Old.radius s * Old.radius s).
  assert (Hd : zn_sf (Prim2SF (powi half_b 2 - a * c))).
  { apply zn_sub.
    - simpl. apply zn_mul_r, zn_mul_l. exact Hb.
    - apply zn_mul_l, zr_zn. exact Ha. }
  rewrite (zn_ltb_zero _ Hd).
  set (sqrtd := PrimFloat.sqrt (powi half_b 2 - a * c)).
  assert (Hr : Prim2SF ((- half_b - sqrtd) / a) = S754_nan).
  { apply zn_div_zr; [|exact Ha]. apply zn_sub; [apply zn_opp, Hb|apply zn_sqrt, Hd]. }
  rewrite (nan_ltb_l _ _ Hr), (nan_ltb_r _ _ Hr). simpl.
  eexists; split; [reflexivity|]. simpl. apply nan_is_nan, Hr.
Qed.

Lemma old_zero_radius_hit (s : Old.Sphere) (r : Old.Ray) (t_min t_max : float) (rec : Old.HitRecord) :
  (Old.radius s =? 0) = true ->
  Old.hit s r t_min t_max = Some rec ->
  PrimFloat.is_finite (x (Old.normal rec)) = false /\
  PrimFloat.is_finite (y (Old.normal rec)) = false /\
  PrimFloat.is_finite (z (Old.normal rec)) = false.
Proof.
  intros Hr. apply eqb_zero_zr in Hr.
  unfold Old.hit; cbv beta zeta.
  destruct (_ <? 0); [discriminate|].
  destruct (_ || _); [destruct (_ || _); [discriminate|]|];
    intros H; injection H as <-; unfold Old.set_face_normal; cbn [Old.normal Old.p];
    (destruct (_ <? 0); simpl; repeat split; apply nonfin_is_finite;
      try apply opp_nonfin; apply div_zr_nonfin; exact Hr).
Qed.

(** A sphere of radius [-rr] is met where the sphere of radius [rr] is:
    same hits, points and [t]; its outward normal is the opposite one, so
    when [dot(dir, n)] is a nonzero number for the outward normal [n] of
    radius [rr], it stores the same normal with [front_face] inverted. *)
Lemma neg_radius_hit (f64_acos : float -> float) (f64_atan2 : float -> float -> float)
  (c : Point3) (rr : float) (m : Material) (r : Ray) (t_min t_max : float) :
  option_map (fun rec => (p rec, t rec)) (Sphere.hit f64_acos f64_atan2 (Sphere.mkSphere c (- rr) m) r t_min t_max) =
  option_map (fun rec => (p rec, t rec)) (Sphere.hit f64_acos f64_atan2 (Sphere.mkSphere c rr m) r t_min t_max) /\
  (forall rec rec',
     Sphere.hit f64_acos f64_atan2 (Sphere.mkSphere c rr m) r t_min t_max = Some rec ->
     Sphere.hit f64_acos f64_atan2 (Sphere.mkSphere c (- rr) m) r t_min t_max = Some rec' ->
     (dot (dir r) (vdiv (vsub (p rec) c) rr) =? 0) = false ->
     PrimFloat.is_nan (dot (dir r) (vdiv (vsub (p rec) c) rr)) = false ->
     normal rec' = normal rec /\ front_face rec' = negb (front_face rec)).
Proof.
  unfold Sphere.hit; cbn [Sphere.center Sphere.radius Sphere.mat_ptr]; cbv zeta.
  rewrite mul_opp_opp.
  destruct (_ <? 0); [split; [reflexivity|intros ? ? H; discriminate H]|].
  destruct (Sphere.root_in _ _ _ _ _) as [root|];
    [|split; [reflexivity|intros ? ? H; discriminate H]].
  rewrite vdiv_opp.
  destruct (Sphere.get_sphere_uv f64_acos f64_atan2 (vneg _)) as [u1 v1].
  destruct (Sphere.get_sphere_uv f64_acos f64_atan2 (vdiv _ _)) as [u0 v0].
  split; [reflexivity|].
  intros rec rec' H H'; injection H as <-; injection H' as <-.
  unfold set_face_normal, HitRecord_new; cbn [p normal front_face]. intros HD HN.
  rewrite (dot_vneg_ltb_negb _ _ HD HN).
  destruct (dot (dir r) (vdiv _ rr) <? 0); cbn [negb]; rewrite ?vneg_vneg; split; reflexivity.
Qed.

Lemma old_neg_radius_hit (c : Point3) (rr : float) (r : Old.Ray) (t_min t_max : float) :
  option_map (fun rec => (Old.p rec, Old.t rec)) (Old.hit (Old.mkSphere c (- rr)) r t_min t_max) =
  option_map (fun rec => (Old.p rec, Old.t rec)) (Old.hit (Old.mkSphere c rr) r t_min t_max) /\
  (forall rec rec',
     Old.hit (Old.mkSphere c rr) r t_min t_max = Some rec ->
     Old.hit (Old.mkSphere c (- rr)) r t_min t_max = Some rec' ->
     (dot (Old.dir r) (vdiv (vsub (Old.p rec) c) rr) =? 0) = false ->
     PrimFloat.is_nan (dot (Old.dir r) (vdiv (vsub (Old.p rec) c) rr)) = false ->
     Old.normal rec' = Old.normal rec /\ Old.front_face rec' = negb (Old.front_face rec)).
Proof.
  unfold Old.hit; cbn [Old.center Old.radius]; cbv beta zeta.
  rewrite mul_opp_opp.
  destruct (_ <? 0); [split; [reflexivity|intros ? ? H; discriminate H]|].
  unfold Old.set_face_normal, Old.HitRecord_new; cbn [Old.p Old.normal Old.front_face Old.t].
  rewrite !vdiv_opp.
  destruct (_ || _); [destruct (_ || _); [split; [reflexivity|intros ? ? H; discriminate H]|]|];
    (split; [reflexivity|]);
    intros rec rec' H H'; injection H as <-; injection H' as <-;
    cbn [Old.normal Old.front_face Old.p]; intros HD HN;
    rewrite (dot_vneg_ltb_negb _ _ HD HN);
    (destruct (dot (Old.dir r) (vdiv _ rr) <? 0); cbn [negb]; rewrite ?vneg_vneg; split; reflexivity).
Qed.

End SphereFacts.

Module OrientFacts.
Import FloatFacts.





End OrientFacts.

(** Magnitude bounds for binary64 addition, used for [near_zero]: the
    exponent of a rounded sum is bounded below by the magnitude of the exact
    sum. *)
Module TinyFacts.

Lemma digits2_size m : digits2_pos m = Pos.size m.
Proof. induction m; simpl; congruence. Qed.

Lemma digits2_log2 m : Zpos (digits2_pos m) = (Z.log2 (Zpos m) + 1)%Z.
Proof.
  rewrite digits2_size. destruct m; simpl; try reflexivity; rewrite Pos2Z.inj_succ; lia.
Qed.

Lemma shr_1_div mrs : (0 <= shr_m mrs)%Z -> shr_m (shr_1 mrs) = (shr_m mrs / 2)%Z.
Proof.
  destruct mrs as [m r s]; cbn [shr_m]. intros H.
  destruct m as [|[q|q|]|q]; cbn; try lia.
  - apply Z.div_unique with (r := 1%Z); lia.
  - apply Z.div_unique with (r := 0%Z); lia.
Qed.

Lemma iter_shr_1_div q : forall mrs, (0 <= shr_m mrs)%Z ->
  shr_m (iter_pos shr_1 q mrs) = (shr_m mrs / 2 ^ Zpos q)%Z.
Proof.
  assert (Hp : forall q, (0 < 2 ^ Zpos q)%Z) by (intros; apply Z.pow_pos_nonneg; lia).
  induction q as [q IH|q IH|]; intros mrs H; cbn [iter_pos].
  - assert (H1 : (0 <= shr_m (shr_1 mrs))%Z) by (rewrite shr_1_div by exact H; apply Z.div_pos; lia).
    assert (H2 : (0 <= shr_m (iter_pos shr_1 q (shr_1 mrs)))%Z)
      by (rewrite IH by exact H1; apply Z.div_pos; [exact H1|apply Hp]).
    rewrite (IH _ H2), (IH _ H1), shr_1_div by exact H.
    rewrite !Z.div_div by (try apply Z.mul_pos_pos; try apply Hp; lia).
    f_equal. replace (Zpos q~1) with (Zpos q + Zpos q + 1)%Z by lia.
    rewrite !Z.pow_add_r by lia. ring.
  - assert (H2 : (0 <= shr_m (iter_pos shr_1 q mrs))%Z)
      by (rewrite IH by exact H; apply Z.div_pos; [exact H|apply Hp]).
    rewrite (IH _ H2), (IH _ H).
    rewrite !Z.div_div by (try apply Hp; lia).
    f_equal. replace (Zpos q~0) with (Zpos q + Zpos q)%Z by lia.
    rewrite !Z.pow_add_r by lia. ring.
  - apply shr_1_div, H.
Qed.

Lemma round_nearest_even_ge m l : (m <= round_nearest_even m l)%Z.
Proof. destruct l as [|[]]; cbn; try destruct (Z.even m); lia. Qed.

Lemma shr_fexp_pos (m0 : positive) e0 :
  let F := (Z.log2 (Zpos m0) + 1 + e0 - 53)%Z in
  (-1074 <= e0 \/ -1074 <= F)%Z ->
  (0 < shr_m (fst (shr_fexp prec emax (Zpos m0) e0 loc_Exact)))%Z /\
  (e0 <= snd (shr_fexp prec emax (Zpos m0) e0 loc_Exact))%Z /\
  (F <= snd (shr_fexp prec emax (Zpos m0) e0 loc_Exact))%Z.
Proof.
  intros F H. unfold shr_fexp. cbn [Zdigits2 shr_record_of_loc].
  rewrite digits2_log2. unfold fexp, emin, prec, emax.
  pose proof (Z.log2_spec (Zpos m0) ltac:(lia)) as [Hl _].
  pose proof (Z.log2_nonneg (Zpos m0)).
  match goal with |- context [shr _ _ ?k] => destruct k as [|q|q] eqn:Ek end;
    cbn [shr fst snd shr_m].
  - lia.
  - rewrite iter_shr_1_div by (cbn; lia). cbn [shr_m].
    assert (Hq : (Zpos q <= Z.log2 (Zpos m0))%Z) by lia.
    split; [|lia].
    apply Z.div_str_pos. split; [apply Z.pow_pos_nonneg; lia|].
    eapply Z.le_trans; [apply Z.pow_le_mono_r; [lia|exact Hq]|exact Hl].
  - lia.
Qed.

Lemma round_aux_lb s (m0 : positive) e0 :
  let F := (Z.log2 (Zpos m0) + 1 + e0 - 53)%Z in
  (-1074 <= F)%Z ->
  binary_round_aux prec emax s (Zpos m0) e0 loc_Exact = S754_infinity s \/
  exists m e, binary_round_aux prec emax s (Zpos m0) e0 loc_Exact = S754_finite s m e /\ (F <= e)%Z.
Proof.
  cbv zeta. intros HF. unfold binary_round_aux.
  destruct (shr_fexp_pos m0 e0 (or_intror HF)) as (H1 & _ & H3).
  destruct (shr_fexp prec emax (Zpos m0) e0 loc_Exact) as [mrs' e'].
  cbn [fst snd] in H1, H3.
  pose proof (round_nearest_even_ge (shr_m mrs') (loc_of_shr_record mrs')) as Hr.
  destruct (round_nearest_even (shr_m mrs') (loc_of_shr_record mrs')) as [|pr|pr]; try lia.
  assert (He' : (-1074 <= e')%Z) by lia.
  destruct (shr_fexp_pos pr e' (or_introl He')) as (H1' & H2' & _).
  destruct (shr_fexp prec emax (Zpos pr) e' loc_Exact) as [mrs'' e''].
  cbn [fst snd] in H1', H2'.
  destruct (shr_m mrs'') as [|m|m]; try lia.
  destruct (Z.leb _ _); [right; exists m, e''; split; [reflexivity|lia]|left; reflexivity].
Qed.

Lemma iter_xO_mul (m d : positive) : Zpos (Pos.iter xO m d) = (Zpos m * 2 ^ Zpos d)%Z.
Proof.
  induction d as [|d IH] using Pos.peano_ind.
  - cbn. lia.
  - rewrite Pos.iter_succ, Pos2Z.inj_succ, Z.pow_succ_r by lia.
    rewrite Pos2Z.inj_xO, IH. ring.
Qed.

Lemma normalize_lb (M : Z) e K :
  (0 <= K)%Z -> (2 ^ K <= Z.abs M)%Z -> (-1074 <= K + e - 52)%Z ->
  exists s, binary_normalize prec emax M e false = S754_infinity s \/
  exists m e'', binary_normalize prec emax M e false = S754_finite s m e'' /\ (K + e - 52 <= e'')%Z.
Proof.
  intros HK HM He.
  assert (Hp : (0 < 2 ^ K)%Z) by (apply Z.pow_pos_nonneg; lia).
  assert (Hlog : forall pm : positive, (2 ^ K <= Zpos pm)%Z -> (K <= Z.log2 (Zpos pm))%Z).
  { intros pm H. rewrite <- (Z.log2_pow2 K HK). apply Z.log2_le_mono, H. }
  destruct M as [|pm|pm]; cbn [Z.abs] in HM; [lia| |];
    [exists false|exists true]; cbn [binary_normalize]; unfold binary_round, shl_align;
    specialize (Hlog pm HM);
    match goal with |- context [match ?k with Z0 => _ | Zpos _ => _ | Zneg _ => _ end] =>
      destruct k as [|d|d] eqn:Ed end;
    match goal with |- context [binary_round_aux _ _ ?s (Zpos ?mz) ?ez loc_Exact] =>
      assert (HF : (K + e - 52 <= Z.log2 (Zpos mz) + 1 + ez - 53)%Z) end;
    try (rewrite ?iter_xO_mul, ?Z.log2_mul_pow2 by lia; lia);
    match goal with |- context [binary_round_aux _ _ ?s (Zpos ?mz) ?ez loc_Exact] =>
      destruct (round_aux_lb s mz ez ltac:(lia)) as [Hi|(m & e'' & Hf & Hb)];
      [left; exact Hi|right; exists m, e''; split; [exact Hf|lia]] end.
Qed.

Lemma valid_log2 s m e : valid_binary (S754_finite s m e) = true ->
  Z.max (Z.log2 (Zpos m) + 1 + e - 53) (-1074) = e.
Proof.
  cbn [valid_binary]. unfold bounded, canonical_mantissa.
  rewrite andb_true_iff, Z.eqb_eq, digits2_log2. unfold fexp, emin, prec, emax. intros [H _].
  lia.
Qed.

Lemma leb_fin m e m' e' : SFleb (S754_finite false m e) (S754_finite false m' e') = true ->
  (e <= e')%Z /\ (e = e' -> (Zpos m <= Zpos m')%Z).
Proof.
  unfold SFleb, SFcompare. intros H.
  destruct (Z.compare_spec e e') as [E|Hl|Hl]; [subst e'|lia|discriminate H].
  split; [lia|intros _].
  change (Pos.compare_cont Eq m m') with (Pos.compare m m') in H.
  destruct (Pos.compare_spec m m'); try discriminate; lia.
Qed.

Lemma ltb_fin m e m' e' : SFltb (S754_finite false m e) (S754_finite false m' e') = true ->
  (e <= e')%Z.
Proof.
  unfold SFltb, SFcompare. intros H.
  destruct (Z.compare_spec e e') as [E|Hl|Hl]; [lia|lia|discriminate H].
Qed.

Lemma ltb_fin_gt m e m' e' : (e' < e)%Z ->
  SFltb (S754_finite false m e) (S754_finite false m' e') = false.
Proof.
  intros H. unfold SFltb, SFcompare. rewrite (proj2 (Z.compare_gt_iff e e') H). reflexivity.
Qed.

(** Adding a number of magnitude below [1e-8] to one of magnitude at least
    [0.5] never gives a result of magnitude below [1e-8]. *)
Lemma add_not_tiny n c :
  (PrimFloat.abs n <? 1e-8) = true -> (0.5 <=? PrimFloat.abs c) = true ->
  (PrimFloat.abs (n + c) <? 1e-8) = false.
Proof.
  rewrite !ltb_spec, leb_spec, !abs_spec, add_spec. unfold SF64add.
  pose proof (Prim2SF_valid n) as Vn. pose proof (Prim2SF_valid c) as Vc.
  change (Prim2SF 1e-8) with (S754_finite false 6044629098073146 (-79)).
  change (Prim2SF 0.5) with (S754_finite false 4503599627370496 (-53)).
  destruct (Prim2SF c) as [sc|sc| |sc mc ec]; intros Hn Hc; try discriminate Hc;
    destruct (Prim2SF n) as [sn|sn| |sn mn en]; try discriminate Hn;
    try (destruct sn, sc; reflexivity).
  - (* zero + finite *)
    cbn [SFadd SFabs] in *. apply leb_fin in Hc. apply ltb_fin_gt. lia.
  - (* finite + finite *)
    cbn [SFabs] in Hn, Hc. apply leb_fin in Hc. apply ltb_fin in Hn.
    apply valid_log2 in Vn, Vc.
    pose proof (Z.log2_spec (Zpos mc) ltac:(lia)) as [Hc1 _].
    pose proof (Z.log2_spec (Zpos mn) ltac:(lia)) as [_ Hn2].
    assert (Lc : Z.log2 (Zpos mc) = 52%Z).
    { destruct Hc as [Hc Hc']. destruct (Z.eq_dec ec (-53)) as [E|E].
      - specialize (Hc' (eq_sym E)). subst ec.
        assert (52 <= Z.log2 (Zpos mc))%Z.
        { change 52%Z with (Z.log2 (2 ^ 52)). apply Z.log2_le_mono. lia. }
        lia.
      - lia. }
    rewrite Lc in Hc1.
    assert (Hn3 : (Zpos mn < 2 ^ 53)%Z).
    { eapply Z.lt_le_trans; [exact Hn2|]. apply Z.pow_le_mono_r; lia. }
    destruct Hc as [Hc _].
    cbn [SFadd]. rewrite (Z.min_l en ec) by lia.
    assert (Ed : (en - ec)%Z = Zneg (Z.to_pos (ec - en))) by lia.
    unfold shl_align. rewrite Z.sub_diag, Ed. cbn [fst].
    rewrite iter_xO_mul, Z2Pos.id by lia.
    remember (ec - en)%Z as d eqn:Hde.
    assert (Hd : (26 <= d)%Z) by lia.
    assert (HP : (2 ^ 2 <= 2 ^ d)%Z) by (apply Z.pow_le_mono_r; lia).
    assert (HM : (2 ^ (51 + d) <= Z.abs (cond_Zopp sn (Zpos mn) + cond_Zopp sc (Zpos mc * 2 ^ d)))%Z).
    { rewrite Z.pow_add_r by lia.
      destruct sn, sc; cbn [cond_Zopp]; nia. }
    destruct (normalize_lb _ en (51 + d) ltac:(lia) HM ltac:(lia)) as [s [Hi|(m & e'' & Hf & Hb)]].
    + rewrite Hi. reflexivity.
    + rewrite Hf. cbn [SFabs]. apply ltb_fin_gt. lia.
Qed.

(** [near_zero] of a sum: a vector that is near zero plus one with a
    component of magnitude at least [0.5] is not near zero. *)
Lemma near_zero_add_half n rv :
  near_zero n = true -> has_half_component rv = true -> near_zero (vadd n rv) = false.
Proof.
  unfold near_zero, has_half_component, vadd; cbn [x y z].
  rewrite !andb_true_iff. intros [[Hx Hy] Hz] H.
  apply orb_true_iff in H as [H|H]; [apply orb_true_iff in H as [H|H]|].
  - rewrite (add_not_tiny _ _ Hx H). reflexivity.
  - rewrite (add_not_tiny _ _ Hy H), andb_false_r. reflexivity.
  - rewrite (add_not_tiny _ _ Hz H), andb_false_r. reflexivity.
Qed.

End TinyFacts.

Module SphereClaims.
Import FloatFacts SphereFacts.

(** C1: in sphere.rs the retried larger root only decides the early return;
    for a ray from the centre of the unit sphere the smaller root [-1] is
    rejected and the larger root [1] accepted, yet the record carries
    [t = -1] and the point [(0, 0, -1)] behind the origin, where the
    current [Sphere::hit] of hittable/sphere.rs returns [t = 1]. *)
Theorem old_hit_keeps_smaller_root :
  Sphere.root_in 0 1 1 0.001 INFINITY_f64 = Some 1 /\
  option_map Old.t (Old.hit (Old.mkSphere (mkVec3 0 0 0) 1)
                      (Old.mkRay (mkVec3 0 0 0) (mkVec3 0 0 1)) 0.001 INFINITY_f64) = Some (-1) /\
  option_map Old.p (Old.hit (Old.mkSphere (mkVec3 0 0 0) 1)
                      (Old.mkRay (mkVec3 0 0 0) (mkVec3 0 0 1)) 0.001 INFINITY_f64) = Some (mkVec3 0 0 (-1)) /\
  option_map t (Sphere.hit acos_any atan2_any (Sphere.mkSphere (mkVec3 0 0 0) 1 (Lambertian_new (mkVec3 1 1 1)))
                  (mkRay (mkVec3 0 0 0) (mkVec3 0 0 1) 0) 0.001 INFINITY_f64) = Some 1.
Proof. vm_compute. repeat split. Qed.

(** C2 (as the code does it): [Sphere::hit], in hittable/sphere.rs and in
    sphere.rs, has no guard for degenerate geometry.  For every ray whose
    direction is a zero vector it returns a record whose [t] is NaN,
    whatever the sphere and range; for a sphere of zero radius every record
    it returns has a normal with no finite component; and a sphere of
    negative radius [-rr] is hit exactly where the sphere of radius [rr]
    is, at the same points and [t], storing the same normal with
    [front_face] inverted whenever [dot(dir, n)] is a nonzero number for
    the outward normal [n] of radius [rr]. *)
Theorem hit_degenerate_not_rejected (f64_acos : float -> float) (f64_atan2 : float -> float -> float) :
  (forall s r t_min t_max,
     (x (dir r) =? 0) = true -> (y (dir r) =? 0) = true -> (z (dir r) =? 0) = true ->
     exists rec, Sphere.hit f64_acos f64_atan2 s r t_min t_max = Some rec /\
                 PrimFloat.is_nan (t rec) = true) /\
  (forall s r t_min t_max,
     (x (Old.dir r) =? 0) = true -> (y (Old.dir r) =? 0) = true -> (z (Old.dir r) =? 0) = true ->
     exists rec, Old.hit s r t_min t_max = Some rec /\ PrimFloat.is_nan (Old.t rec) = true) /\
  (forall s r t_min t_max rec,
     (Sphere.radius s =? 0) = true ->
     Sphere.hit f64_acos f64_atan2 s r t_min t_max = Some rec ->
     PrimFloat.is_finite (x (normal rec)) = false /\
     PrimFloat.is_finite (y (normal rec)) = false /\
     PrimFloat.is_finite (z (normal rec)) = false) /\
  (forall s r t_min t_max rec,
     (Old.radius s =? 0) = true ->
     Old.hit s r t_min t_max = Some rec ->
     PrimFloat.is_finite (x (Old.normal rec)) = false /\
     PrimFloat.is_finite (y (Old.normal rec)) = false /\
     PrimFloat.is_finite (z (Old.normal rec)) = false) /\
  (forall c rr m r t_min t_max,
     option_map (fun rec => (p rec, t rec))
       (Sphere.hit f64_acos f64_atan2 (Sphere.mkSphere c (- rr) m) r t_min t_max) =
     option_map (fun rec => (p rec, t rec))
       (Sphere.hit f64_acos f64_atan2 (Sphere.mkSphere c rr m) r t_min t_max) /\
     (forall rec rec',
        Sphere.hit f64_acos f64_atan2 (Sphere.mkSphere c rr m) r t_min t_max = Some rec ->
        Sphere.hit f64_acos f64_atan2 (Sphere.mkSphere c (- rr) m) r t_min t_max = Some rec' ->
        (dot (dir r) (vdiv (vsub (p rec) c) rr) =? 0) = false ->
        PrimFloat.is_nan (dot (dir r) (vdiv (vsub (p rec) c) rr)) = false ->
        normal rec' = normal rec /\ front_face rec' = negb (front_face rec))) /\
  (forall c rr r t_min t_max,
     option_map (fun rec => (Old.p rec, Old.t rec)) (Old.hit (Old.mkSphere c (- rr)) r t_min t_max) =
     option_map (fun rec => (Old.p rec, Old.t rec)) (Old.hit (Old.mkSphere c rr) r t_min t_max) /\
     (forall rec rec',
        Old.hit (Old.mkSphere c rr) r t_min t_max = Some rec ->
        Old.hit (Old.mkSphere c (- rr)) r t_min t_max = Some rec' ->
        (dot (Old.dir r) (vdiv (vsub (Old.p rec) c) rr) =? 0) = false ->
        PrimFloat.is_nan (dot (Old.dir r) (vdiv (vsub (Old.p rec) c) rr)) = false ->
        Old.normal rec' = Old.normal rec /\ Old.front_face rec' = negb (Old.front_face rec))).
Proof.
  split; [|split; [|split; [|split; [|split]]]].
  - intros; apply zero_direction_hit; assumption.
  - intros; apply old_zero_direction_hit; assumption.
  - intros; eapply zero_radius_hit; eassumption.
  - intros; eapply old_zero_radius_hit; eassumption.
  - intros; apply neg_radius_hit.
  - intros; apply old_neg_radius_hit.
Qed.

Lemma hit_degenerate_not_rejected_witness :
  (exists rec, Sphere.hit acos_any atan2_any
                 (Sphere.mkSphere (mkVec3 0 0 0) 1 (Lambertian_new (mkVec3 1 1 1)))
                 (mkRay (mkVec3 1 2 3) (mkVec3 0 0 0) 0) 0.001 INFINITY_f64 = Some rec /\
               PrimFloat.is_nan (t rec) = true) /\
  (exists rec, Old.hit (Old.mkSphere (mkVec3 0 0 0) 1) (Old.mkRay (mkVec3 1 2 3) (mkVec3 0 0 0))
                 0.001 INFINITY_f64 = Some rec /\ PrimFloat.is_nan (Old.t rec) = true) /\
  (exists rec rec',
     Sphere.hit acos_any atan2_any (Sphere.mkSphere (mkVec3 0 0 0) 1 (Lambertian_new (mkVec3 1 1 1)))
       (mkRay (mkVec3 0 0 (-5)) (mkVec3 0 0 1) 0) 0.001 INFINITY_f64 = Some rec /\
     Sphere.hit acos_any atan2_any (Sphere.mkSphere (mkVec3 0 0 0) (-1) (Lambertian_new (mkVec3 1 1 1)))
       (mkRay (mkVec3 0 0 (-5)) (mkVec3 0 0 1) 0) 0.001 INFINITY_f64 = Some rec' /\
     normal rec' = normal rec /\ front_face rec' = negb (front_face rec)).
Proof.
  split; [|split].
  - apply (proj1 (hit_degenerate_not_rejected acos_any atan2_any)); reflexivity.
  - apply (proj1 (proj2 (hit_degenerate_not_rejected acos_any atan2_any))); reflexivity.
  - do 2 eexists; split; [reflexivity|split; [reflexivity|]].
    apply (proj2 (proj1 (proj2 (proj2 (proj2 (proj2 (hit_degenerate_not_rejected acos_any atan2_any)))))
             (mkVec3 0 0 0) 1 (Lambertian_new (mkVec3 1 1 1))
             (mkRay (mkVec3 0 0 (-5)) (mkVec3 0 0 1) 0) 0.001 INFINITY_f64));
      [reflexivity|reflexivity|vm_compute; reflexivity|vm_compute; reflexivity].
Defined.

(** C2 fails: a ray with the zero direction from [(1, 2, 3)] meets the unit
    sphere in a record whose [t] is NaN. *)
Lemma zero_direction_nan_hit :
  option_map (fun rec => PrimFloat.is_nan (t rec))
    (Sphere.hit acos_any atan2_any (Sphere.mkSphere (mkVec3 0 0 0) 1 (Lambertian_new (mkVec3 1 1 1)))
       (mkRay (mkVec3 1 2 3) (mkVec3 0 0 0) 0) 0.001 INFINITY_f64) = Some true.
Proof. vm_compute. reflexivity. Qed.

(** C4: the ray from the origin along [+y] meets the sphere of radius 1
    centred at [(0, 5, 0)] at the near root [t = 4], with the stored normal
    [(0, -1, 0)] facing the ray and [front_face] set; for every material,
    ray time and platform [acos]/[atan2], and in both sphere modules. *)
Theorem hit_concrete_near_root (f64_acos : float -> float) (f64_atan2 : float -> float -> float)
  (m : Material) (time : float) :
  option_map strip
    (Sphere.hit f64_acos f64_atan2 (Sphere.mkSphere (mkVec3 0 5 0) 1 m)
       (mkRay (mkVec3 0 0 0) (mkVec3 0 1 0) time) 0.001 INFINITY_f64)
  = Some (mkVec3 0 4 0, mkVec3 0 (-1) 0, 4, true, m) /\
  option_map (fun rec => (Old.p rec, Old.normal rec, Old.t rec, Old.front_face rec))
    (Old.hit (Old.mkSphere (mkVec3 0 5 0) 1) (Old.mkRay (mkVec3 0 0 0) (mkVec3 0 1 0))
       0.001 INFINITY_f64)
  = Some (mkVec3 0 4 0, mkVec3 0 (-1) 0, 4, true).
Proof. split; vm_compute; reflexivity. Qed.

(** C6: [pdf_value] is [1 / solid_angle] with [solid_angle = 2 PI (1 -
    cos_max)] and [cos_max = sqrt(1 - r^2 / |C - O|^2)] when the ray from
    [o] along [v] hits the sphere over [(0.001, +inf)], and [0] otherwise. *)
Theorem pdf_value_solid_angle (f64_acos : float -> float) (f64_atan2 : float -> float -> float)
  (s : Sphere.Sphere) (o : Point3) (v0 : Vec3) :
  Sphere.pdf_value f64_acos f64_atan2 s o v0 =
  match Sphere.hit f64_acos f64_atan2 s (mkRay o v0 0) 0.001 INFINITY_f64 with
  | Some _ =>
      let r2 := Sphere.radius s * Sphere.radius s in
      let dist2 := length_sqr (vsub (Sphere.center s) o) in
      let cos_max := PrimFloat.sqrt (1 - r2 / dist2) in
      let solid_angle := 2 * PI_f64 * (1 - cos_max) in
      1 / solid_angle
  | None => 0
  end.
Proof. reflexivity. Qed.




End SphereClaims.

Module MaterialClaims.

(** C5 (as the code does it): [Dielectric::scatter] uses the ratio [1/ir]
    on a front face and [ir] otherwise, takes the next uniform draw, and
    reflects when [ratio * sin_theta > 1] or when the draw is below
    Schlick's reflectance evaluated with [ref_idx = ratio] (so [r0 =
    ((1 - ratio) / (1 + ratio))^2]); otherwise it refracts; the pdf is 0. *)
Theorem dielectric_scatter_code (ir : float) (r_in : Ray) (rec : HitRecord) (st : RandState) :
  let ratio := if front_face rec then 1 / ir else ir in
  let unit_direction := to_unit (dir r_in) in
  let cos_theta := fmin (dot (vneg unit_direction) (normal rec)) 1 in
  let sin_theta := PrimFloat.sqrt (1 - powi cos_theta 2) in
  let draw := fst (gen_f64 st) in
  fst (scatter (Dielectric ir) r_in rec st) =
  Some (mkVec3 1 1 1,
        mkRay (p rec)
          (if (1 <? ratio * sin_theta) || (draw <? reflectance cos_theta ratio)
           then reflect unit_direction (normal rec)
           else refract unit_direction (normal rec) ratio)
          (tm r_in),
        0).
Proof.
  cbv zeta. unfold scatter, rbind, rret.
  destruct (gen_f64 st); reflexivity.
Qed.

(** C5 fails: a ray along [(0.5, -12, 0)] reaches a front face of glass
    ([ir = 1.5]) with normal [(0, 1, 0)]; with the draw
    [0.04000000000000048] the code's reflectance exceeds the draw and the
    ray is reflected, while Schlick's reflectance with [r0] from [ir] does
    not and the spec's rule refracts it; the two directions differ. *)
Lemma dielectric_schlick_from_ratio :
  option_map (fun '(_, sc, _) => dir sc)
    (fst (scatter (Dielectric 1.5) (mkRay (mkVec3 0 1 0) (mkVec3 0.5 (-12) 0) 0)
            (mkHitRecord zero3 (mkVec3 0 1 0) 1 0 0 true (Dielectric 1.5))
            (mkRand [0.04000000000000048] [])))
  = Some (reflect (to_unit (mkVec3 0.5 (-12) 0)) (mkVec3 0 1 0)) /\
  option_map (fun '(_, sc, _) => dir sc)
    (fst (dielectric_scatter_spec 1.5 (mkRay (mkVec3 0 1 0) (mkVec3 0.5 (-12) 0) 0)
            (mkHitRecord zero3 (mkVec3 0 1 0) 1 0 0 true (Dielectric 1.5))
            (mkRand [0.04000000000000048] [])))
  = Some (refract (to_unit (mkVec3 0.5 (-12) 0)) (mkVec3 0 1 0) (1 / 1.5)) /\
  (y (reflect (to_unit (mkVec3 0.5 (-12) 0)) (mkVec3 0 1 0)) =?
   y (refract (to_unit (mkVec3 0.5 (-12) 0)) (mkVec3 0 1 0) (1 / 1.5))) = false.
Proof. vm_compute. repeat split. Qed.

(** C10: [Dielectric::scatter] never absorbs: for every ray, record and
    generator state it returns the attenuation [(1, 1, 1)], a ray from the
    hit point and the pdf 0. *)
Theorem dielectric_never_absorbs (ir : float) (r_in : Ray) (rec : HitRecord) (st : RandState) :
  exists scattered,
    fst (scatter (Dielectric ir) r_in rec st) = Some (mkVec3 1 1 1, scattered, 0) /\
    orig scattered = p rec.
Proof.
  eexists. split; [apply dielectric_scatter_code|reflexivity].
Qed.

(** C9: the Lambertian of material.rs never absorbs: it returns the albedo
    and a ray from the hit point along [normal + random_unit_vector], or
    along the normal when that sum is near zero.  The direction is never
    near zero when the normal is not, and, whatever the normal, when the
    random vector has a component of magnitude at least [1/2], as every
    unit vector does. *)
Theorem old_lambertian_never_absorbs (albedo : Color) (r_in : Old.Ray) (rec : Old.HitRecord)
  (st : RandState) :
  let rv := fst (random_unit_vector st) in
  let sd := vadd (Old.normal rec) rv in
  let dir0 := if near_zero sd then Old.normal rec else sd in
  fst (Old.scatter (Old.Lambertian albedo) r_in rec st) = Some (albedo, Old.mkRay (Old.p rec) dir0) /\
  (near_zero (Old.normal rec) = false \/ has_half_component rv = true -> near_zero dir0 = false).
Proof.
  cbv zeta. unfold Old.scatter, rbind, rret.
  destruct (random_unit_vector st) as [rv st'] eqn:E. cbn [fst].
  split; [reflexivity|].
  destruct (near_zero (vadd (Old.normal rec) rv)) eqn:Ez; [|intros _; exact Ez].
  intros [Hn|Hh]; [exact Hn|].
  destruct (near_zero (Old.normal rec)) eqn:En; [|reflexivity].
  rewrite (TinyFacts.near_zero_add_half _ _ En Hh) in Ez. discriminate Ez.
Qed.

Lemma old_lambertian_never_absorbs_witness :
  fst (Old.scatter (Old.Lambertian (mkVec3 0.5 0.5 0.5)) (Old.mkRay (mkVec3 0 2 0) (mkVec3 0 (-1) 0))
         (Old.mkHitRecord (mkVec3 0 1 0) (mkVec3 0 0 0) 1 true) (mkRand [] [mkVec3 0 (-1) 0]))
  = Some (mkVec3 0.5 0.5 0.5, Old.mkRay (mkVec3 0 1 0) (mkVec3 0 (-1) 0)) /\
  near_zero (mkVec3 0 (-1) 0) = false.
Proof.
  pose proof (old_lambertian_never_absorbs (mkVec3 0.5 0.5 0.5) (Old.mkRay (mkVec3 0 2 0) (mkVec3 0 (-1) 0))
                (Old.mkHitRecord (mkVec3 0 1 0) (mkVec3 0 0 0) 1 true) (mkRand [] [mkVec3 0 (-1) 0]))
    as [H1 H2].
  split; [exact H1|].
  apply H2. right. reflexivity.
Defined.

End MaterialClaims.

Module UVClaims.




End UVClaims.

Module NanFacts.
Import FloatFacts.

Lemma nan_mul_l a b : Prim2SF a = S754_nan -> Prim2SF (a * b) = S754_nan.
Proof. intros H. rewrite mul_spec, H. reflexivity. Qed.

Lemma nan_mul_r a b : Prim2SF b = S754_nan -> Prim2SF (a * b) = S754_nan.
Proof. intros H. rewrite mul_spec, H. unfold SF64mul. sf_cases (Prim2SF a); reflexivity. Qed.

Lemma nan_add_l a b : Prim2SF a = S754_nan -> Prim2SF (a + b) = S754_nan.
Proof. intros H. rewrite add_spec, H. reflexivity. Qed.

Lemma nan_add_r a b : Prim2SF b = S754_nan -> Prim2SF (a + b) = S754_nan.
Proof. intros H. rewrite add_spec, H. unfold SF64add. sf_cases (Prim2SF a); reflexivity. Qed.

Lemma nan_sub_l a b : Prim2SF a = S754_nan -> Prim2SF (a - b) = S754_nan.
Proof. intros H. rewrite sub_spec, H. reflexivity. Qed.

Lemma nan_sub_r a b : Prim2SF b = S754_nan -> Prim2SF (a - b) = S754_nan.
Proof. intros H. rewrite sub_spec, H. unfold SF64sub. sf_cases (Prim2SF a); reflexivity. Qed.

Lemma nan_div_l a b : Prim2SF a = S754_nan -> Prim2SF (a / b) = S754_nan.
Proof. intros H. rewrite div_spec, H. reflexivity. Qed.

Lemma nan_opp a : Prim2SF a = S754_nan -> Prim2SF (- a) = S754_nan.
Proof. intros H. rewrite opp_spec, H. reflexivity. Qed.

Lemma nan_sqrt a : Prim2SF a = S754_nan -> Prim2SF (PrimFloat.sqrt a) = S754_nan.
Proof. intros H. rewrite sqrt_spec, H. reflexivity. Qed.

Lemma nan_powi2 a : Prim2SF a = S754_nan -> Prim2SF (powi a 2) = S754_nan.
Proof. intros H. cbn [powi powi_pos]. apply nan_mul_r, nan_mul_l, H. Qed.

Lemma zn_div_zn a b : zn_sf (Prim2SF a) -> zn_sf (Prim2SF b) -> Prim2SF (a / b) = S754_nan.
Proof.
  rewrite div_spec. unfold SF64div.
  sf_cases (Prim2SF a); sf_cases (Prim2SF b); simpl; tauto.
Qed.

(** [a - a] is a zero, or NaN when [a] is infinite or NaN. *)
Lemma sub_self_zn a : zn_sf (Prim2SF (a - a)).
Proof.
  rewrite sub_spec. unfold SF64sub.
  sf_cases (Prim2SF a); try (simpl; tauto);
    cbn [SFsub]; rewrite Z.sub_diag; simpl; tauto.
Qed.

(** The root a sphere hit accepts lies in the range. *)
Lemma root_in_range half_b sqrtd a t_min t_max root :
  Sphere.root_in half_b sqrtd a t_min t_max = Some root ->
  (root <? t_min) = false /\ (t_max <? root) = false.
Proof.
  unfold Sphere.root_in; cbv zeta.
  destruct (((- half_b - sqrtd) / a <? t_min) || (t_max <? (- half_b - sqrtd) / a)) eqn:E1.
  - destruct (((- half_b + sqrtd) / a <? t_min) || (t_max <? (- half_b + sqrtd) / a)) eqn:E2.
    + intros H; discriminate H.
    + intros H; injection H as <-. apply orb_false_iff in E2. exact E2.
  - intros H; injection H as <-. apply orb_false_iff in E1. exact E1.
Qed.

End NanFacts.

Module OrderFacts.
Import FloatFacts NanFacts.

Lemma SFcompare_swap a b : SFcompare b a = option_map CompOpp (SFcompare a b).
Proof.
  destruct a as [[]|[]| |[] m1 e1]; destruct b as [[]|[]| |[] m2 e2]; try reflexivity;
    cbn [SFcompare option_map];
    rewrite (Z.compare_antisym e1 e2); destruct (Z.compare e1 e2); try reflexivity;
    cbn [CompOpp]; f_equal; rewrite ?CompOpp_involutive, Pos.compare_cont_antisym; reflexivity.
Qed.

Lemma ltb_asym a b : (a <? b) = true -> (b <? a) = false.
Proof.
  rewrite !ltb_spec. unfold SFltb. rewrite (SFcompare_swap (Prim2SF a) (Prim2SF b)).
  destruct (SFcompare (Prim2SF a) (Prim2SF b)) as [[]|]; cbn; congruence.
Qed.

Lemma SFcompare_refl_nonnan f : f <> S754_nan -> SFcompare f f = Some Eq.
Proof.
  destruct f as [[]|[]| |[] m e]; intros H; try reflexivity; [contradiction| |];
    cbn [SFcompare]; rewrite Z.compare_refl;
    change (Pos.compare_cont Eq m m) with (Pos.compare m m); rewrite Pos.compare_refl;
    reflexivity.
Qed.

Lemma is_nan_sf a : PrimFloat.is_nan a = true -> Prim2SF a = S754_nan.
Proof.
  unfold PrimFloat.is_nan. rewrite eqb_spec. unfold SFeqb.
  destruct (Prim2SF a) eqn:E; try reflexivity;
    rewrite SFcompare_refl_nonnan by discriminate; discriminate.
Qed.

Lemma ltb_not_nan a b : (a <? b) = true -> PrimFloat.is_nan a = false.
Proof.
  intros H. destruct (PrimFloat.is_nan a) eqn:E; [|reflexivity].
  apply is_nan_sf in E. rewrite (nan_ltb_l _ b E) in H. discriminate.
Qed.

Lemma SFcompare_eq_finite s m e b :
  SFcompare (S754_finite s m e) b = Some Eq -> b = S754_finite s m e.
Proof.
  destruct b as [[]|[]| |[] m' e']; destruct s; cbn [SFcompare]; intros H;
    try discriminate; injection H as H;
    destruct (Z.compare e e') eqn:Ez; try discriminate;
    apply Z.compare_eq in Ez; subst e';
    [destruct (Pos.compare_cont Eq m m') eqn:Em; try discriminate|];
    change (Pos.compare_cont Eq m m') with (Pos.compare m m') in *;
    apply Pos.compare_eq in Em || apply Pos.compare_eq in H; subst; reflexivity.
Qed.

Lemma binary_round_aux_not_neg m e l :
  SFltb (binary_round_aux prec emax false m e l) (S754_zero false) = false.
Proof.
  unfold binary_round_aux.
  destruct (shr_fexp prec emax m e l) as [mrs' e'].
  destruct (shr_fexp prec emax _ e' loc_Exact) as [mrs'' e''].
  destruct (shr_m mrs''); [reflexivity| |reflexivity].
  destruct (Z.leb _ _); reflexivity.
Qed.

(** Dividing a number that is not below zero by [PI] gives a number that is
    not below zero. *)
Lemma div_PI_not_neg a : (a <? 0) = false -> (a / PI_f64 <? 0) = false.
Proof.
  assert (EP : exists m e, Prim2SF PI_f64 = S754_finite false m e) by (do 2 eexists; reflexivity).
  destruct EP as (mp & ep & EP).
  rewrite !ltb_spec, div_spec, EP, Prim2SF_zero. unfold SF64div.
  destruct (Prim2SF a) as [[]|[]| |[] m e]; cbn [SFdiv xorb]; try reflexivity; try discriminate.
  intros _. destruct (SFdiv_core_binary prec emax (Zpos m) e (Zpos mp) ep) as [[mz ez] lz].
  apply binary_round_aux_not_neg.
Qed.

Lemma ltb_zero_sqrt_nan a : (a <? 0) = true -> Prim2SF (PrimFloat.sqrt a) = S754_nan.
Proof.
  rewrite ltb_spec, sqrt_spec, Prim2SF_zero. unfold SF64sqrt.
  destruct (Prim2SF a) as [[]|[]| |[] m e]; cbn; congruence.
Qed.

Lemma clamp_nan a lo hi : Prim2SF a = S754_nan -> f64_clamp a lo hi = a.
Proof.
  intros H. unfold f64_clamp. rewrite (nan_ltb_l _ _ H), (nan_ltb_r _ _ H). reflexivity.
Qed.

Lemma floor_as_u8_nan a : Prim2SF a = S754_nan -> floor_as_u8 a = 0%Z.
Proof. intros H. unfold floor_as_u8. rewrite H. reflexivity. Qed.

Lemma write_component_saturates c spp : component_saturates c spp (write_component c spp).
Proof.
  unfold component_saturates, write_component. cbv zeta.
  set (avg := c / i32_as_f64 spp). split.
  - intros Hn.
    assert (Hs : Prim2SF (PrimFloat.sqrt avg) = S754_nan).
    { destruct Hn as [Hn|Hn]; [apply ltb_zero_sqrt_nan, Hn|apply nan_sqrt, is_nan_sf, Hn]. }
    rewrite (clamp_nan _ _ _ Hs). apply floor_as_u8_nan, nan_mul_l, Hs.
  - set (q := PrimFloat.sqrt avg). intros Hle. unfold f64_clamp.
    assert (E9 : exists m e, Prim2SF 0.999 = S754_finite false m e) by (do 2 eexists; reflexivity).
    destruct E9 as (m9 & e9 & E9).
    destruct (q <? 0) eqn:Hneg.
    { exfalso. revert Hle Hneg. rewrite leb_spec, ltb_spec, E9, Prim2SF_zero.
      destruct (Prim2SF q) as [[]|[]| |[] m e]; cbn; congruence. }
    destruct (0.999 <? q) eqn:Hgt; [reflexivity|].
    assert (Eq9 : q = 0.999).
    { revert Hle Hgt. rewrite leb_spec, ltb_spec, E9. unfold SFleb, SFltb.
      destruct (SFcompare (S754_finite false m9 e9) (Prim2SF q)) as [[]|] eqn:Ec;
        try discriminate; intros _ _.
      apply SFcompare_eq_finite in Ec. rewrite <- E9 in Ec.
      rewrite <- (SF2Prim_Prim2SF q), Ec. apply SF2Prim_Prim2SF. }
    rewrite Eq9. reflexivity.
Qed.

Lemma SFcompare_none a b : SFcompare a b = None -> a = S754_nan \/ b = S754_nan.
Proof.
  destruct a as [[]|[]| |[] m1 e1]; destruct b as [[]|[]| |[] m2 e2]; cbn [SFcompare];
    intros H; try discriminate H; auto.
Qed.

(** A number that is neither below [lo] nor above [hi] lies in [[lo, hi]],
    unless it or a bound is NaN. *)
Lemma not_outside_range a lo hi :
  (a <? lo) = false -> (hi <? a) = false ->
  ((lo <=? a) && (a <=? hi)) = true \/ PrimFloat.is_nan a = true \/
  PrimFloat.is_nan lo = true \/ PrimFloat.is_nan hi = true.
Proof.
  rewrite !ltb_spec, !leb_spec. unfold SFltb, SFleb.
  rewrite (SFcompare_swap (Prim2SF a) (Prim2SF lo)), (SFcompare_swap (Prim2SF a) (Prim2SF hi)).
  destruct (SFcompare (Prim2SF a) (Prim2SF lo)) as [[]|] eqn:E1;
    destruct (SFcompare (Prim2SF a) (Prim2SF hi)) as [[]|] eqn:E2;
    cbn; intros H1 H2; try discriminate; try (left; reflexivity);
    first [destruct (SFcompare_none _ _ E1) as [H|H] | destruct (SFcompare_none _ _ E2) as [H|H]];
    apply nan_is_nan in H; tauto.
Qed.

End OrderFacts.

Module HitExtras.
Import FloatFacts NanFacts OrderFacts.

(** Every record returned by [Sphere::hit] (hittable/sphere.rs) has a [t]
    in [[t_min, t_max]] unless [t], [t_min] or [t_max] is NaN, lies at [r.at(t)] on
    the ray, carries the sphere's material and the surface coordinates of
    its outward normal [(p - center) / radius], and stores that normal
    flipped exactly when [front_face] is false, with [front_face] set to
    [dot(r.dir, outward) < 0]. *)
Theorem sphere_hit_record (f64_acos : float -> float) (f64_atan2 : float -> float -> float)
  (s : Sphere.Sphere) (r : Ray) (t_min t_max : float) (rec : HitRecord) :
  Sphere.hit f64_acos f64_atan2 s r t_min t_max = Some rec ->
  let outward := vdiv (vsub (p rec) (Sphere.center s)) (Sphere.radius s) in
  (((t_min <=? t rec) && (t rec <=? t_max)) = true \/ PrimFloat.is_nan (t rec) = true \/
   PrimFloat.is_nan t_min = true \/ PrimFloat.is_nan t_max = true) /\
  p rec = ray_at r (t rec) /\
  front_face rec = (dot (dir r) outward <? 0) /\
  normal rec = (if front_face rec then outward else vneg outward) /\
  (u rec, v rec) = Sphere.get_sphere_uv f64_acos f64_atan2 outward /\
  mat_ptr rec = Sphere.mat_ptr s.
Proof.
  intros H. unfold Sphere.hit in H; cbv zeta in H.
  destruct (_ <? 0) in H; [discriminate|].
  match type of H with context [Sphere.root_in ?a ?b ?c ?d ?e] =>
    destruct (Sphere.root_in a b c d e) as [root|] eqn:Er end; [|discriminate].
  destruct (Sphere.get_sphere_uv _ _ _) as [u0 v0] eqn:Euv.
  injection H as <-. apply root_in_range in Er. destruct Er as [E1 E2].
  pose proof (not_outside_range _ _ _ E1 E2) as Hr.
  cbv zeta. cbn [p normal t u v front_face mat_ptr set_face_normal HitRecord_new].
  repeat split; try assumption; try reflexivity.
  symmetry; exact Euv.
Qed.

Lemma sphere_hit_record_witness :
  exists rec,
    Sphere.hit acos_any atan2_any (Sphere.mkSphere (mkVec3 0 5 0) 1 (Lambertian_new (mkVec3 1 1 1)))
      (mkRay (mkVec3 0 0 0) (mkVec3 0 1 0) 0) 0.001 INFINITY_f64 = Some rec /\
    let outward := vdiv (vsub (p rec) (mkVec3 0 5 0)) 1 in
    (((0.001 <=? t rec) && (t rec <=? INFINITY_f64)) = true \/ PrimFloat.is_nan (t rec) = true \/
     PrimFloat.is_nan 0.001 = true \/ PrimFloat.is_nan INFINITY_f64 = true) /\
    p rec = ray_at (mkRay (mkVec3 0 0 0) (mkVec3 0 1 0) 0) (t rec) /\
    front_face rec = (dot (mkVec3 0 1 0) outward <? 0) /\
    normal rec = (if front_face rec then outward else vneg outward) /\
    (u rec, v rec) = Sphere.get_sphere_uv acos_any atan2_any outward /\
    mat_ptr rec = Lambertian_new (mkVec3 1 1 1).
Proof.
  eexists; split; [reflexivity|].
  apply (sphere_hit_record acos_any atan2_any
           (Sphere.mkSphere (mkVec3 0 5 0) 1 (Lambertian_new (mkVec3 1 1 1)))
           (mkRay (mkVec3 0 0 0) (mkVec3 0 1 0) 0) 0.001 INFINITY_f64).
  reflexivity.
Defined.

(** The same for [MovingSphere::hit], with the centre taken at the ray's
    time. *)
Theorem moving_sphere_hit_record (f64_acos : float -> float) (f64_atan2 : float -> float -> float)
  (s : MovingSphere.MovingSphere) (r : Ray) (t_min t_max : float) (rec : HitRecord) :
  MovingSphere.hit f64_acos f64_atan2 s r t_min t_max = Some rec ->
  let outward := vdiv (vsub (p rec) (MovingSphere.center s (tm r))) (MovingSphere.radius s) in
  (((t_min <=? t rec) && (t rec <=? t_max)) = true \/ PrimFloat.is_nan (t rec) = true \/
   PrimFloat.is_nan t_min = true \/ PrimFloat.is_nan t_max = true) /\
  p rec = ray_at r (t rec) /\
  front_face rec = (dot (dir r) outward <? 0) /\
  normal rec = (if front_face rec then outward else vneg outward) /\
  (u rec, v rec) = Sphere.get_sphere_uv f64_acos f64_atan2 outward /\
  mat_ptr rec = MovingSphere.mat_ptr s.
Proof.
  intros H. unfold MovingSphere.hit in H; cbv zeta in H.
  destruct (_ <? 0) in H; [discriminate|].
  match type of H with context [Sphere.root_in ?a ?b ?c ?d ?e] =>
    destruct (Sphere.root_in a b c d e) as [root|] eqn:Er end; [|discriminate].
  destruct (Sphere.get_sphere_uv _ _ _) as [u0 v0] eqn:Euv.
  injection H as <-. apply root_in_range in Er. destruct Er as [E1 E2].
  pose proof (not_outside_range _ _ _ E1 E2) as Hr.
  cbv zeta. cbn [p normal t u v front_face mat_ptr set_face_normal HitRecord_new].
  repeat split; try assumption; try reflexivity.
  symmetry; exact Euv.
Qed.

Lemma moving_sphere_hit_record_witness :
  exists rec,
    MovingSphere.hit acos_any atan2_any
      (MovingSphere.mkMovingSphere (mkVec3 0 5 0) (mkVec3 0 7 0) 0 1 1 (Lambertian_new (mkVec3 1 1 1)))
      (mkRay (mkVec3 0 0 0) (mkVec3 0 1 0) 0.5) 0.001 INFINITY_f64 = Some rec /\
    let outward := vdiv (vsub (p rec) (mkVec3 0 6 0)) 1 in
    (((0.001 <=? t rec) && (t rec <=? INFINITY_f64)) = true \/ PrimFloat.is_nan (t rec) = true \/
     PrimFloat.is_nan 0.001 = true \/ PrimFloat.is_nan INFINITY_f64 = true) /\
    p rec = ray_at (mkRay (mkVec3 0 0 0) (mkVec3 0 1 0) 0.5) (t rec) /\
    front_face rec = (dot (mkVec3 0 1 0) outward <? 0) /\
    normal rec = (if front_face rec then outward else vneg outward) /\
    (u rec, v rec) = Sphere.get_sphere_uv acos_any atan2_any outward /\
    mat_ptr rec = Lambertian_new (mkVec3 1 1 1).
Proof.
  eexists; split; [reflexivity|].
  apply (moving_sphere_hit_record acos_any atan2_any
           (MovingSphere.mkMovingSphere (mkVec3 0 5 0) (mkVec3 0 7 0) 0 1 1 (Lambertian_new (mkVec3 1 1 1)))
           (mkRay (mkVec3 0 0 0) (mkVec3 0 1 0) 0.5) 0.001 INFINITY_f64).
  reflexivity.
Defined.

(** The sphere of sphere.rs and the one of hittable/sphere.rs agree on
    whether a ray hits, for every sphere, ray and range; and when the
    smaller root of the quadratic lies in the range they return the same
    point, normal, [t] and [front_face]. *)
Theorem old_hit_agrees (f64_acos : float -> float) (f64_atan2 : float -> float -> float)
  (c : Point3) (rad : float) (m : Material) (o : Point3) (d : Vec3) (time t_min t_max : float) :
  (Old.hit (Old.mkSphere c rad) (Old.mkRay o d) t_min t_max = None <->
   Sphere.hit f64_acos f64_atan2 (Sphere.mkSphere c rad m) (mkRay o d time) t_min t_max = None) /\
  (let oc := vsub o c in
   let a := length_sqr d in
   let half_b := dot oc d in
   let cc := length_sqr oc - rad * rad in
   let root := (- half_b - PrimFloat.sqrt (powi half_b 2 - a * cc)) / a in
   ((root <? t_min) || (t_max <? root)) = false ->
   option_map (fun rec => (Old.p rec, Old.normal rec, Old.t rec, Old.front_face rec))
     (Old.hit (Old.mkSphere c rad) (Old.mkRay o d) t_min t_max) =
   option_map (fun rec => (p rec, normal rec, t rec, front_face rec))
     (Sphere.hit f64_acos f64_atan2 (Sphere.mkSphere c rad m) (mkRay o d time) t_min t_max)).
Proof.
  unfold Old.hit, Sphere.hit, Sphere.root_in; cbn [Old.orig Old.dir Old.center Old.radius
    orig dir Sphere.center Sphere.radius Sphere.mat_ptr]; cbv zeta.
  set (half_b := dot (vsub o c) d).
  set (a := length_sqr d).
  set (sq := PrimFloat.sqrt (powi half_b 2 - a * (length_sqr (vsub o c) - rad * rad))).
  destruct (powi half_b 2 - a * (length_sqr (vsub o c) - rad * rad) <? 0).
  { split; [tauto|reflexivity]. }
  destruct (((- half_b - sq) / a <? t_min) || (t_max <? (- half_b - sq) / a)).
  - destruct (((- half_b + sq) / a <? t_min) || (t_max <? (- half_b + sq) / a)).
    + split; [tauto|reflexivity].
    + destruct (Sphere.get_sphere_uv _ _ _).
      split; [split; intros H; discriminate H|intros H; discriminate H].
  - destruct (Sphere.get_sphere_uv _ _ _).
    split; [split; intros H; discriminate H|intros _; reflexivity].
Qed.

Lemma old_hit_agrees_witness :
  ((- dot (vsub (mkVec3 0 0 0) (mkVec3 0 5 0)) (mkVec3 0 1 0)
    - PrimFloat.sqrt (powi (dot (vsub (mkVec3 0 0 0) (mkVec3 0 5 0)) (mkVec3 0 1 0)) 2
        - length_sqr (mkVec3 0 1 0) * (length_sqr (vsub (mkVec3 0 0 0) (mkVec3 0 5 0)) - 1 * 1)))
     / length_sqr (mkVec3 0 1 0) <? 0.001) = false /\
  option_map (fun rec => (Old.p rec, Old.normal rec, Old.t rec, Old.front_face rec))
    (Old.hit (Old.mkSphere (mkVec3 0 5 0) 1) (Old.mkRay (mkVec3 0 0 0) (mkVec3 0 1 0)) 0.001 INFINITY_f64) =
  option_map (fun rec => (p rec, normal rec, t rec, front_face rec))
    (Sphere.hit acos_any atan2_any (Sphere.mkSphere (mkVec3 0 5 0) 1 (Lambertian_new (mkVec3 1 1 1)))
       (mkRay (mkVec3 0 0 0) (mkVec3 0 1 0) 0) 0.001 INFINITY_f64).
Proof.
  split; [reflexivity|].
  apply (proj2 (old_hit_agrees acos_any atan2_any (mkVec3 0 5 0) 1 (Lambertian_new (mkVec3 1 1 1))
                  (mkVec3 0 0 0) (mkVec3 0 1 0) 0 0.001 INFINITY_f64)).
  reflexivity.
Defined.

(** A moving sphere whose two times coincide has a NaN centre at that
    time (all three components NaN): [MovingSphere::hit] then reports a hit
    with a NaN [t] for every ray at that time, whatever its origin,
    direction and range. *)
Theorem moving_sphere_same_times_nan_hit (f64_acos : float -> float) (f64_atan2 : float -> float -> float)
  (s : MovingSphere.MovingSphere) (r : Ray) (t_min t_max : float) :
  MovingSphere.time1 s = MovingSphere.time0 s -> tm r = MovingSphere.time0 s ->
  (PrimFloat.is_nan (x (MovingSphere.center s (tm r))) = true /\
   PrimFloat.is_nan (y (MovingSphere.center s (tm r))) = true /\
   PrimFloat.is_nan (z (MovingSphere.center s (tm r))) = true) /\
  exists rec, MovingSphere.hit f64_acos f64_atan2 s r t_min t_max = Some rec /\
              PrimFloat.is_nan (t rec) = true.
Proof.
  intros H1 Ht.
  assert (Hf : Prim2SF ((tm r - MovingSphere.time0 s) / (MovingSphere.time1 s - MovingSphere.time0 s))
               = S754_nan).
  { rewrite H1, Ht. apply zn_div_zn; apply sub_self_zn. }
  assert (Hc : Prim2SF (x (MovingSphere.center s (tm r))) = S754_nan /\
               Prim2SF (y (MovingSphere.center s (tm r))) = S754_nan /\
               Prim2SF (z (MovingSphere.center s (tm r))) = S754_nan).
  { unfold MovingSphere.center, vadd, vscale, vsub; cbn [x y z].
    repeat split; apply nan_add_r, nan_mul_r, Hf. }
  destruct Hc as (Hx & Hy & Hz).
  split; [repeat split; apply nan_is_nan; assumption|].
  unfold MovingSphere.hit; cbv zeta.
  set (oc := vsub (orig r) (MovingSphere.center s (tm r))).
  assert (Hb : Prim2SF (dot oc (dir r)) = S754_nan).
  { unfold dot, oc, vsub; cbn [x y z].
    apply nan_add_l, nan_add_l, nan_mul_l, nan_sub_r, Hx. }
  set (a := length_sqr (dir r)).
  set (half_b := dot oc (dir r)) in *.
  set (c := length_sqr oc - MovingSphere.radius s * MovingSphere.radius s).
  assert (Hd : Prim2SF (powi half_b 2 - a * c) = S754_nan).
  { apply nan_sub_l, nan_powi2, Hb. }
  rewrite (nan_ltb_l _ _ Hd).
  unfold Sphere.root_in.
  set (sqrtd := PrimFloat.sqrt (powi half_b 2 - a * c)).
  assert (Hr : Prim2SF ((- half_b - sqrtd) / a) = S754_nan).
  { apply nan_div_l, nan_sub_l, nan_opp, Hb. }
  rewrite (nan_ltb_l _ _ Hr), (nan_ltb_r _ _ Hr). simpl.
  eexists; split; [reflexivity|]. simpl. apply nan_is_nan, Hr.
Qed.

Lemma moving_sphere_same_times_nan_hit_witness :
  (PrimFloat.is_nan (x (MovingSphere.center
     (MovingSphere.mkMovingSphere (mkVec3 0 0 (-1)) (mkVec3 1 0 (-1)) 0 0 0.5 (Lambertian_new (mkVec3 1 1 1))) 0)) = true /\
   PrimFloat.is_nan (y (MovingSphere.center
     (MovingSphere.mkMovingSphere (mkVec3 0 0 (-1)) (mkVec3 1 0 (-1)) 0 0 0.5 (Lambertian_new (mkVec3 1 1 1))) 0)) = true /\
   PrimFloat.is_nan (z (MovingSphere.center
     (MovingSphere.mkMovingSphere (mkVec3 0 0 (-1)) (mkVec3 1 0 (-1)) 0 0 0.5 (Lambertian_new (mkVec3 1 1 1))) 0)) = true) /\
  exists rec,
    MovingSphere.hit acos_any atan2_any
      (MovingSphere.mkMovingSphere (mkVec3 0 0 (-1)) (mkVec3 1 0 (-1)) 0 0 0.5 (Lambertian_new (mkVec3 1 1 1)))
      (mkRay (mkVec3 0 0 0) (mkVec3 0 1 0) 0) 0.001 INFINITY_f64 = Some rec /\
    PrimFloat.is_nan (t rec) = true.
Proof.
  apply (moving_sphere_same_times_nan_hit acos_any atan2_any
           (MovingSphere.mkMovingSphere (mkVec3 0 0 (-1)) (mkVec3 1 0 (-1)) 0 0 0.5 (Lambertian_new (mkVec3 1 1 1)))
           (mkRay (mkVec3 0 0 0) (mkVec3 0 1 0) 0) 0.001 INFINITY_f64); reflexivity.
Defined.

End HitExtras.


Module MaterialExtras.
Import FloatFacts NanFacts OrderFacts.

(** [Metal::new], in material/mod.rs and in material.rs, never stores a
    fuzz above 1 nor a NaN fuzz: a fuzz that is not below 1, NaN included,
    is stored as 1. *)
Theorem metal_new_fuzz_capped (a : Color) (f : float) :
  match Metal_new a f with
  | Metal _ fz => (1 <? fz) = false /\ PrimFloat.is_nan fz = false /\
                  ((f <? 1) = false -> fz = 1) /\ (PrimFloat.is_nan f = true -> fz = 1)
  | _ => False
  end /\
  match Old.Metal_new a f with
  | Old.Metal _ fz => (1 <? fz) = false /\ PrimFloat.is_nan fz = false /\
                      ((f <? 1) = false -> fz = 1) /\ (PrimFloat.is_nan f = true -> fz = 1)
  | _ => False
  end.
Proof.
  unfold Metal_new, Old.Metal_new.
  destruct (f <? 1) eqn:E.
  - pose proof (ltb_not_nan _ _ E) as Hn.
    split; (split; [apply ltb_asym, E|split; [exact Hn|split; [discriminate|congruence]]]).
  - split; repeat split; reflexivity.
Qed.

(** Of the materials of material/mod.rs only a diffuse light and a metal
    whose perturbed reflection does not leave the surface absorb a ray;
    Lambertian, dielectric and isotropic materials always scatter.  Only a
    diffuse light emits, and only from a front face, where it emits its
    texture's value; every other material, and a light seen from behind,
    emits black. *)
Theorem scatter_absorbs_only (m : Material) (r_in : Ray) (rec : HitRecord) (st : RandState) :
  (fst (scatter m r_in rec st) = None ->
   (exists e, m = DiffuseLight e) \/
   (exists albedo fuzz, m = Metal albedo fuzz /\
      (0 <? dot (vadd (reflect (to_unit (dir r_in)) (normal rec))
                      (vscale (fst (random_in_unit_sphere st)) fuzz)) (normal rec)) = false)) /\
  (forall u0 v0 p0,
     emitted m r_in rec u0 v0 p0 = mkVec3 0 0 0 \/
     (exists e, m = DiffuseLight e /\ front_face rec = true /\
                emitted m r_in rec u0 v0 p0 = value e u0 v0 p0)).
Proof.
  split.
  - destruct m as [al|al fz|ir|e|al]; unfold scatter, rbind, rret.
    + destruct (random_cosine_direction st); cbn [fst]; intros H; discriminate H.
    + destruct (random_in_unit_sphere st) as [rv st'] eqn:E. cbv zeta.
      intros H. right. exists al, fz. split; [reflexivity|]. cbn [fst].
      destruct (0 <? _) eqn:Ed; [discriminate H|reflexivity].
    + destruct (gen_f64 st); cbn [fst]; intros H; discriminate H.
    + intros _. left. exists e. reflexivity.
    + destruct (random_in_unit_sphere st); cbn [fst]; intros H; discriminate H.
  - intros u0 v0 p0. destruct m as [al|al fz|ir|e|al]; cbn [emitted]; try (left; reflexivity).
    destruct (front_face rec) eqn:Ef; [right; exists e; auto|left; reflexivity].
Qed.

Lemma scatter_absorbs_only_witness :
  fst (scatter (DiffuseLight_new (mkVec3 4 4 4)) (mkRay zero3 (mkVec3 0 0 (-1)) 0)
         (mkHitRecord zero3 (mkVec3 0 0 1) 1 0 0 true (DiffuseLight_new (mkVec3 4 4 4))) (mkRand [] []))
    = None /\
  ((exists e, DiffuseLight_new (mkVec3 4 4 4) = DiffuseLight e) \/
   (exists albedo fuzz, DiffuseLight_new (mkVec3 4 4 4) = Metal albedo fuzz /\
      (0 <? dot (vadd (reflect (to_unit (mkVec3 0 0 (-1))) (mkVec3 0 0 1))
                      (vscale (fst (random_in_unit_sphere (mkRand [] []))) fuzz)) (mkVec3 0 0 1)) = false)).
Proof.
  split; [reflexivity|].
  apply (proj1 (scatter_absorbs_only (DiffuseLight_new (mkVec3 4 4 4)) (mkRay zero3 (mkVec3 0 0 (-1)) 0)
                  (mkHitRecord zero3 (mkVec3 0 0 1) 1 0 0 true (DiffuseLight_new (mkVec3 4 4 4)))
                  (mkRand [] []))).
  reflexivity.
Defined.

(** [Material::scattering_pdf] never returns a value below zero, for every
    material, ray, record and scattered ray. *)
Theorem scattering_pdf_not_neg (m : Material) (r_in : Ray) (rec : HitRecord) (scattered : Ray) :
  (scattering_pdf m r_in rec scattered <? 0) = false.
Proof.
  destruct m; cbn [scattering_pdf]; try reflexivity.
  destruct (dot (normal rec) (to_unit (dir scattered)) <? 0) eqn:E; [reflexivity|].
  apply div_PI_not_neg, E.
Qed.

(** [write_color] maps a component whose average over the samples is below
    zero or NaN to the byte 0, and one whose average has a square root of at
    least 0.999 to 255, for every colour and sample count. *)
Theorem write_color_saturates (pixel_color : Color) (samples_per_pixel : Z) :
  let '(r0, g0, b0) := write_color pixel_color samples_per_pixel in
  component_saturates (x pixel_color) samples_per_pixel r0 /\
  component_saturates (y pixel_color) samples_per_pixel g0 /\
  component_saturates (z pixel_color) samples_per_pixel b0.
Proof.
  unfold write_color. repeat split; apply write_component_saturates.
Qed.

Lemma write_color_saturates_witness :
  write_color (mkVec3 100 (-1) 25) 100 = (255%Z, 0%Z, 127%Z) /\
  let '(r0, g0, b0) := write_color (mkVec3 100 (-1) 25) 100 in
  component_saturates 100 100 r0 /\ component_saturates (-1) 100 g0 /\ component_saturates 25 100 b0.
Proof.
  split; [reflexivity|].
  apply (write_color_saturates (mkVec3 100 (-1) 25) 100).
Defined.

End MaterialExtras.

Module GeometryExtras.
Import FloatFacts NanFacts OrderFacts.

Lemma finite_sf a : PrimFloat.is_finite a = true ->
  match Prim2SF a with S754_zero _ | S754_finite _ _ _ => True | _ => False end.
Proof.
  unfold PrimFloat.is_finite, PrimFloat.is_nan, PrimFloat.is_infinity.
  rewrite !eqb_spec, abs_spec, Prim2SF_infinity.
  destruct (Prim2SF a) as [[]|[]| |[] m e]; cbn; try tauto; discriminate.
Qed.

Lemma sub_self_zr a : PrimFloat.is_finite a = true -> zr_sf (Prim2SF (a - a)).
Proof.
  intros H. apply finite_sf in H. rewrite sub_spec. unfold SF64sub.
  destruct (Prim2SF a) as [[]|[]| |[] m e]; try contradiction; try (simpl; tauto);
    cbn [SFsub]; rewrite Z.sub_diag; simpl; tauto.
Qed.

Lemma zr_div a b : zr_sf (Prim2SF a) -> (b =? 0) = false -> PrimFloat.is_nan b = false ->
  zr_sf (Prim2SF (a / b)).
Proof.
  unfold PrimFloat.is_nan. rewrite !eqb_spec, div_spec, Prim2SF_zero. unfold SF64div.
  destruct (Prim2SF a) as [[]|[]| |[] m e]; cbn; try tauto;
  destruct (Prim2SF b) as [[]|[]| |[] m' e']; cbn; try tauto; try discriminate;
  intros _ _;
  rewrite ?Z.compare_refl; change (Pos.compare_cont Eq m' m') with (Pos.compare m' m');
  rewrite ?Pos.compare_refl; discriminate.
Qed.

Lemma finite_mul_zr a b : PrimFloat.is_finite a = true -> zr_sf (Prim2SF b) ->
  zr_sf (Prim2SF (a * b)).
Proof.
  intros H. apply finite_sf in H. rewrite mul_spec. unfold SF64mul.
  destruct (Prim2SF a) as [[]|[]| |[] m e]; try contradiction;
  destruct (Prim2SF b) as [[]|[]| |[] m' e']; cbn; tauto.
Qed.

Lemma add_zr_zsim a b : zr_sf (Prim2SF b) -> zsim (Prim2SF (a + b)) (Prim2SF a).
Proof.
  rewrite add_spec. unfold SF64add, zsim.
  destruct (Prim2SF b) as [[]|[]| |[] m' e']; cbn; try tauto;
  destruct (Prim2SF a) as [[]|[]| |[] m e]; cbn; tauto.
Qed.

(** At its start time [time0] a moving sphere's centre is [center0], up to
    the sign of a zero coordinate, whenever [time0] is finite, [time1 -
    time0] is a nonzero number and [center1 - center0] is finite. *)
Theorem moving_center_at_time0 (s : MovingSphere.MovingSphere) :
  PrimFloat.is_finite (MovingSphere.time0 s) = true ->
  (MovingSphere.time1 s - MovingSphere.time0 s =? 0) = false ->
  PrimFloat.is_nan (MovingSphere.time1 s - MovingSphere.time0 s) = false ->
  PrimFloat.is_finite (x (MovingSphere.center1 s) - x (MovingSphere.center0 s)) = true ->
  PrimFloat.is_finite (y (MovingSphere.center1 s) - y (MovingSphere.center0 s)) = true ->
  PrimFloat.is_finite (z (MovingSphere.center1 s) - z (MovingSphere.center0 s)) = true ->
  zsim (Prim2SF (x (MovingSphere.center s (MovingSphere.time0 s)))) (Prim2SF (x (MovingSphere.center0 s))) /\
  zsim (Prim2SF (y (MovingSphere.center s (MovingSphere.time0 s)))) (Prim2SF (y (MovingSphere.center0 s))) /\
  zsim (Prim2SF (z (MovingSphere.center s (MovingSphere.time0 s)))) (Prim2SF (z (MovingSphere.center0 s))).
Proof.
  intros Ht Hd0 Hdn Hx Hy Hz.
  assert (Hf : zr_sf (Prim2SF ((MovingSphere.time0 s - MovingSphere.time0 s) /
                               (MovingSphere.time1 s - MovingSphere.time0 s)))).
  { apply zr_div; [apply sub_self_zr, Ht|exact Hd0|exact Hdn]. }
  unfold MovingSphere.center, vadd, vscale, vsub; cbn [x y z].
  repeat split; apply add_zr_zsim, finite_mul_zr; assumption.
Qed.

Lemma moving_center_at_time0_witness :
  PrimFloat.is_finite 0 = true /\ (1 - 0 =? 0) = false /\ PrimFloat.is_nan (1 - 0) = false /\
  PrimFloat.is_finite (1 - 0) = true /\ PrimFloat.is_finite (0 - 0) = true /\
  PrimFloat.is_finite ((-1) - (-1)) = true /\
  zsim (Prim2SF (x (MovingSphere.center (MovingSphere.mkMovingSphere (mkVec3 0 0 (-1)) (mkVec3 1 0 (-1)) 0 1 0.5 (Lambertian_new (mkVec3 1 1 1))) 0)))
       (Prim2SF 0) /\
  zsim (Prim2SF (y (MovingSphere.center (MovingSphere.mkMovingSphere (mkVec3 0 0 (-1)) (mkVec3 1 0 (-1)) 0 1 0.5 (Lambertian_new (mkVec3 1 1 1))) 0)))
       (Prim2SF 0) /\
  zsim (Prim2SF (z (MovingSphere.center (MovingSphere.mkMovingSphere (mkVec3 0 0 (-1)) (mkVec3 1 0 (-1)) 0 1 0.5 (Lambertian_new (mkVec3 1 1 1))) 0)))
       (Prim2SF (-1)).
Proof.
  do 6 (split; [reflexivity|]).
  apply (moving_center_at_time0
           (MovingSphere.mkMovingSphere (mkVec3 0 0 (-1)) (mkVec3 1 0 (-1)) 0 1 0.5 (Lambertian_new (mkVec3 1 1 1))));
    reflexivity.
Defined.

End GeometryExtras.
